(** * A shallow embedding of [parser.py] of the seatbelt2 AST node generator

    The parser consumes a token list produced by the lexer and builds a
    [GeneratorDescription].  The cursor ([Parser]) is a fixed token list with
    a mutable [index]; we model it as a state-and-error monad over the index,
    with the token list a section variable.  Python exceptions become the
    [error] type: [ParserError] with one constructor per message of the
    source, and [IndexError] for an out-of-range [self.tokens[self.index]].
    Python [while] loops are modelled by fuel-bounded fixpoints; running out
    of fuel is the extra error [OutOfFuel], which the termination theorem
    shows is never produced with the fuel [parse] gives. *)

From Stdlib Require Import String Ascii List Arith Lia Bool.
Import ListNotations.
Open Scope string_scope.
Open Scope list_scope.

(** ** Tokens *)

(** Modelled from the spec: the lexer module ([lexer.TokenType], [lexer.Token])
    is not part of the sources; the kinds are those the spec lists and
    [parser.py] uses, a token carries a kind [type_] and its raw [lexeme]. *)
Inductive TokenType :=
| IDENTIFIER | STRING_LITERAL | TYPE | FUNCTION | IMPLEMENT | BY_MOVE
| LEFT_PARENTHESIS | RIGHT_PARENTHESIS | EQUALS | PIPE | END_OF_INPUT.

Definition TokenType_eqb (a b : TokenType) : bool :=
  match a, b with
  | IDENTIFIER, IDENTIFIER | STRING_LITERAL, STRING_LITERAL | TYPE, TYPE
  | FUNCTION, FUNCTION | IMPLEMENT, IMPLEMENT | BY_MOVE, BY_MOVE
  | LEFT_PARENTHESIS, LEFT_PARENTHESIS | RIGHT_PARENTHESIS, RIGHT_PARENTHESIS
  | EQUALS, EQUALS | PIPE, PIPE | END_OF_INPUT, END_OF_INPUT => true
  | _, _ => false
  end.

Lemma TokenType_eqb_eq (a b : TokenType) : TokenType_eqb a b = true <-> a = b.
Proof. destruct a, b; simpl; split; congruence. Qed.

Record Token := mkToken { type_ : TokenType; lexeme : string }.

(** ** Python string helpers *)

(** [s[1:-1]]: drop the first and the last character; strings shorter than
    two characters give the empty string. *)
Definition slice_1_m1 (s : string) : string :=
  substring 1 (String.length s - 2) s.

(** [str.isspace] on a single character, reading the 8-bit characters of
    [string] as Latin-1 code points: tab, LF, VT, FF, CR, the separators
    0x1c-0x1f, space, NEL (0x85) and NBSP (0xa0). *)
Definition is_py_space (c : ascii) : bool :=
  let n := nat_of_ascii c in
  (((9 <=? n) && (n <=? 13)) || ((28 <=? n) && (n <=? 32)) || (n =? 133) || (n =? 160))%nat.

Fixpoint lstrip_list (l : list ascii) : list ascii :=
  match l with
  | [] => []
  | c :: l' => if is_py_space c then lstrip_list l' else l
  end.

(** [str.strip()] with no argument. *)
Definition py_strip (s : string) : string :=
  string_of_list_ascii
    (rev (lstrip_list (rev (lstrip_list (list_ascii_of_string s))))).

(** The text every production stores for a STRING token:
    [token.lexeme[1:-1].strip()]. *)
Definition literal_text (lex : string) : string := py_strip (slice_1_m1 lex).

(** The lexeme of a string literal holding [s]: [s] between double quotes. *)
Definition quoted (s : string) : string :=
  String "034"%char (s ++ String "034"%char EmptyString).

(** ** Python dictionaries *)

(** A [dict] (and an [OrderedDict]) as an association list in insertion
    order.  [d[k] = v] on a present key replaces the value in place, keeping
    the key's position; on a new key it appends. *)
Definition dict (V : Type) := list (string * V).

Fixpoint dict_set {V} (k : string) (v : V) (d : dict V) : dict V :=
  match d with
  | [] => [(k, v)]
  | (k', v') :: d' => if String.eqb k k' then (k, v) :: d' else (k', v') :: dict_set k v d'
  end.

(** [len(set(xs))] *)
Definition set_len (xs : list string) : nat := List.length (nodup string_dec xs).

(** [set(xs) != set(ys)] *)
Definition set_neqb (xs ys : list string) : bool :=
  negb (forallb (fun x => existsb (String.eqb x) ys) xs
        && forallb (fun y => existsb (String.eqb y) xs) ys).

(** ** The AST *)

Module Member.
Record t := mk { name : string; by_move : bool; type_ : string }.
End Member.

Module PureVirtualFunction.
Record t := mk { name : string; return_type : option string }.
End PureVirtualFunction.

Module Implementation.
Record t := mk { name : string; body : string }.
End Implementation.

(** The error messages [parser.py] raises. *)
Inductive parser_message :=
| UnexpectedEndOfInput                                  (* "unexpected end of input" *)
| UnexpectedTokenType (expected got : TokenType) (lex : string)
                                                        (* "unexpected token type (...)" *)
| DuplicatePureVirtualFunctions                         (* "duplicate declaration of pure virtual functions" *)
| DuplicateImplementation                               (* "duplicate implementation" *)
| NotAllImplemented                                     (* "not all pure virtual functions are implemented" *)
| UnexpectedToken (got : TokenType)                     (* 'unexpected token "..."' *)
| PostludeNotLast.                                      (* "the postlude must be the last part of the file" *)

Inductive error :=
| ParserError (m : parser_message)
| IndexError
| OutOfFuel.

Inductive result (A : Type) :=
| Ok (a : A)
| Err (e : error).
Arguments Ok {A} a.
Arguments Err {A} e.

Module PolymorphicType.
Record t := mk {
  pure_virtual_functions : list PureVirtualFunction.t;
  members : list Member.t;
  implementations : list Implementation.t }.

(** [PolymorphicType.__init__], with its three checks in source order. *)
Definition init (pure_virtual_functions : list PureVirtualFunction.t)
    (members : list Member.t) (implementations : list Implementation.t) : result t :=
  let fnames := map PureVirtualFunction.name pure_virtual_functions in
  let inames := map Implementation.name implementations in
  if negb (Nat.eqb (set_len fnames) (List.length fnames)) then
    Err (ParserError DuplicatePureVirtualFunctions)
  else if negb (Nat.eqb (set_len inames) (List.length inames)) then
    Err (ParserError DuplicateImplementation)
  else if set_neqb fnames inames then
    Err (ParserError NotAllImplemented)
  else Ok (mk pure_virtual_functions members implementations).
End PolymorphicType.

Module AbstractType.
Record t := mk {
  sub_types : dict PolymorphicType.t;
  members : list Member.t;
  pure_virtual_functions : list PureVirtualFunction.t }.
End AbstractType.

Module GeneratorDescription.
Record t := mk {
  prelude : string;
  type_definitions : list (string * string);
  abstract_types : dict AbstractType.t;
  postlude : string }.
End GeneratorDescription.

(** ** Printing *)

(** [Member.__str__] *)
Definition member_str (m : Member.t) : string :=
  Member.name m ++ (if Member.by_move m then " by_move" else EmptyString) ++ ": " ++ Member.type_ m.

Definition newline : string := String "010"%char EmptyString.
Definition tab : ascii := "009"%char.

(** [sep.join(xs)] *)
Fixpoint join (sep : string) (xs : list string) : string :=
  match xs with
  | [] => EmptyString
  | [x] => x
  | x :: xs' => x ++ sep ++ join sep xs'
  end.

(** [PolymorphicType.__str__]: one line per member, indented by three tabs. *)
Definition polymorphic_type_str (pt : PolymorphicType.t) : string :=
  join newline (map (fun m => String tab (String tab (String tab (member_str m))))
                    (PolymorphicType.members pt)).

(** Whether a string holds a line feed. *)
Fixpoint has_newline (s : string) : bool :=
  match s with
  | EmptyString => false
  | String c s' => Ascii.eqb c "010"%char || has_newline s'
  end.

(** [s.split(newline)], used to read printed text back line by line. *)
Fixpoint split_lines (s : string) : list string :=
  match s with
  | EmptyString => [EmptyString]
  | String c s' =>
      if Ascii.eqb c "010"%char then EmptyString :: split_lines s'
      else match split_lines s' with
           | [] => [String c EmptyString]
           | l :: ls => String c l :: ls
           end
  end.

(** ** The cursor as a state-and-error monad over [Parser.index] *)

Definition PM (A : Type) := nat -> result (A * nat).

Definition ret {A} (a : A) : PM A := fun i => Ok (a, i).
Definition fail {A} (e : error) : PM A := fun _ => Err e.
Definition bind {A B} (m : PM A) (k : A -> PM B) : PM B :=
  fun i => match m i with Ok (a, j) => k a j | Err e => Err e end.
(** A result computed outside the cursor (a constructor that may raise). *)
Definition lift {A} (r : result A) : PM A :=
  fun i => match r with Ok a => Ok (a, i) | Err e => Err e end.

Notation "x <- m ;; k" := (bind m (fun x => k))
  (at level 61, m at next level, right associativity).
Notation "' p <- m ;; k" := (bind m (fun p => k))
  (at level 61, p pattern, m at next level, right associativity).
Notation "m ;; k" := (bind m (fun _ => k)) (at level 61, right associativity).

Section Parser.
Variable tokens : list Token.

(** [Parser.current]: [self.tokens[self.index]]. *)
Definition current : PM Token :=
  fun i => match nth_error tokens i with
           | Some t => Ok (t, i)
           | None => Err IndexError
           end.

(** [Parser.next] *)
Definition next : PM unit := fun i => Ok (tt, S i).

(** [Parser.is_end_of_input]: [index >= len(tokens) or current().type_ == END_OF_INPUT],
    with Python's short-circuit [or]. *)
Definition is_end_of_input : PM bool :=
  fun i => if Nat.leb (List.length tokens) i then Ok (true, i)
           else (c <- current;; ret (TokenType_eqb (type_ c) END_OF_INPUT)) i.

(** [Parser.peek] *)
Definition peek : PM (option Token) :=
  e <- is_end_of_input;;
  if e then ret None
  else fun i => match nth_error tokens (S i) with
                | Some t => Ok (Some t, i)
                | None => Err IndexError
                end.

(** [Parser.consume] *)
Definition consume (ty : TokenType) : PM Token :=
  e <- is_end_of_input;;
  if e then fail (ParserError UnexpectedEndOfInput)
  else
    c <- current;;
    if negb (TokenType_eqb (type_ c) ty)
    then fail (ParserError (UnexpectedTokenType ty (type_ c) (lexeme c)))
    else
      result <- current;;
      next;;
      ret result.

(** The bound given to every loop: one more than the number of tokens. *)
Definition fuel : nat := S (List.length tokens).

(** [parse_data_member] *)
Definition parse_data_member : PM Member.t :=
  member_name <- consume IDENTIFIER;;
  c <- current;;
  let by_move := TokenType_eqb (type_ c) BY_MOVE in
  (if by_move then next else ret tt);;
  member_type <- consume STRING_LITERAL;;
  ret (Member.mk (lexeme member_name) by_move (literal_text (lexeme member_type))).

(** [parse_implementation] *)
Definition parse_implementation : PM Implementation.t :=
  consume IMPLEMENT;;
  function_name <- consume IDENTIFIER;;
  function_body <- consume STRING_LITERAL;;
  ret (Implementation.mk (lexeme function_name) (literal_text (lexeme function_body))).

(** The [while True] loop of [parse_subtype]. *)
Fixpoint parse_subtype_body (n : nat) (members : list Member.t)
    (implementations : list Implementation.t)
    : PM (list Member.t * list Implementation.t) :=
  match n with
  | O => fail OutOfFuel
  | S n =>
      c <- current;;
      if TokenType_eqb (type_ c) IDENTIFIER then
        m <- parse_data_member;;
        parse_subtype_body n (members ++ [m]) implementations
      else
        c' <- current;;
        if TokenType_eqb (type_ c') IMPLEMENT then
          im <- parse_implementation;;
          parse_subtype_body n members (implementations ++ [im])
        else ret (members, implementations)
  end.

(** [parse_subtype] *)
Definition parse_subtype : PM (string * list Member.t * list Implementation.t) :=
  identifier <- consume IDENTIFIER;;
  consume LEFT_PARENTHESIS;;
  '(members, implementations) <- parse_subtype_body fuel [] [];;
  consume RIGHT_PARENTHESIS;;
  ret (lexeme identifier, members, implementations).

(** The loop [while current().type_ == IDENTIFIER] over the shared members of
    an abstract type (lines 133-134 of [parse]). *)
Fixpoint parse_base_members (n : nat) (acc : list Member.t) : PM (list Member.t) :=
  match n with
  | O => fail OutOfFuel
  | S n =>
      c <- current;;
      if TokenType_eqb (type_ c) IDENTIFIER then
        m <- parse_data_member;;
        parse_base_members n (acc ++ [m])
      else ret acc
  end.

(** One pure virtual function declaration (lines 138-142 of [parse]). *)
Definition parse_function_declaration : PM PureVirtualFunction.t :=
  consume FUNCTION;;
  function_identifier <- consume IDENTIFIER;;
  rt <- consume STRING_LITERAL;;
  let return_type_string := literal_text (lexeme rt) in
  let function_return_type :=
    if Nat.ltb 0 (String.length return_type_string) then Some return_type_string else None in
  ret (PureVirtualFunction.mk (lexeme function_identifier) function_return_type).

(** The loop [while current().type_ == FUNCTION] (lines 137-142). *)
Fixpoint parse_functions (n : nat) (acc : list PureVirtualFunction.t)
    : PM (list PureVirtualFunction.t) :=
  match n with
  | O => fail OutOfFuel
  | S n =>
      c <- current;;
      if TokenType_eqb (type_ c) FUNCTION then
        f <- parse_function_declaration;;
        parse_functions n (acc ++ [f])
      else ret acc
  end.

(** The header of an abstract type, up to and including [=] (lines 129-145). *)
Definition parse_polymorphic_header
    : PM (Token * list Member.t * list PureVirtualFunction.t) :=
  identifier <- consume IDENTIFIER;;
  consume LEFT_PARENTHESIS;;
  base_type_members <- parse_base_members fuel [];;
  functions <- parse_functions fuel [];;
  consume RIGHT_PARENTHESIS;;
  consume EQUALS;;
  ret (identifier, base_type_members, functions).

(** The loop [while current().type_ == PIPE] over the further variants
    (lines 150-154). *)
Fixpoint parse_variants (n : nat) (functions : list PureVirtualFunction.t)
    (sub_types : dict PolymorphicType.t) : PM (dict PolymorphicType.t) :=
  match n with
  | O => fail OutOfFuel
  | S n =>
      c <- current;;
      if TokenType_eqb (type_ c) PIPE then
        next;;
        '(name, members, implementations) <- parse_subtype;;
        polymorphic_type <- lift (PolymorphicType.init functions members implementations);;
        parse_variants n functions (dict_set name polymorphic_type sub_types)
      else ret sub_types
  end.

(** The [case TokenType.IDENTIFIER] branch of [parse] (lines 129-155). *)
Definition parse_polymorphic_type : PM (string * AbstractType.t) :=
  '(identifier, base_type_members, functions) <- parse_polymorphic_header;;
  '(name, members, implementations) <- parse_subtype;;
  polymorphic_type <- lift (PolymorphicType.init functions members implementations);;
  sub_types <- parse_variants fuel functions (dict_set name polymorphic_type []);;
  ret (lexeme identifier, AbstractType.mk sub_types base_type_members functions).

(** The [case TokenType.TYPE] branch of [parse] (lines 124-127). *)
Definition parse_type_definition : PM (string * string) :=
  next;;
  identifier <- consume IDENTIFIER;;
  contents <- consume STRING_LITERAL;;
  ret (lexeme identifier, literal_text (lexeme contents)).

(** The [case TokenType.STRING_LITERAL] branch of [parse] (lines 157-158). *)
Definition parse_postlude : PM string :=
  c <- current;;
  next;;
  ret (literal_text (lexeme c)).

(** Lines 115-119 of [parse]. *)
Definition parse_prelude : PM string :=
  c <- current;;
  if TokenType_eqb (type_ c) STRING_LITERAL then
    next;;
    ret (literal_text (lexeme c))
  else ret "".

(** The file-level [while not is_end_of_input()] loop of [parse]; it returns
    the type definitions, the abstract types and the postlude ([""] when the
    loop ends without one). *)
Fixpoint parse_file_level (n : nat) (type_definitions : list (string * string))
    (polymorphic_types : dict AbstractType.t)
    : PM (list (string * string) * dict AbstractType.t * string) :=
  match n with
  | O => fail OutOfFuel
  | S n =>
      e <- is_end_of_input;;
      if e then ret (type_definitions, polymorphic_types, "")
      else
        c <- current;;
        match type_ c with
        | TYPE =>
            td <- parse_type_definition;;
            parse_file_level n (type_definitions ++ [td]) polymorphic_types
        | IDENTIFIER =>
            '(name, abstract_type) <- parse_polymorphic_type;;
            parse_file_level n type_definitions (dict_set name abstract_type polymorphic_types)
        | STRING_LITERAL =>
            postlude <- parse_postlude;;
            ret (type_definitions, polymorphic_types, postlude)
        | t => fail (ParserError (UnexpectedToken t))
        end
  end.

(** [parse] on a cursor at index 0. *)
Definition parse_m : PM GeneratorDescription.t :=
  prelude <- parse_prelude;;
  '(type_definitions, polymorphic_types, postlude) <- parse_file_level fuel [] [];;
  e <- is_end_of_input;;
  if negb e then fail (ParserError PostludeNotLast)
  else ret (GeneratorDescription.mk prelude type_definitions polymorphic_types postlude).

End Parser.

(** [parse(tokens)] *)
Definition parse (tokens : list Token) : result GeneratorDescription.t :=
  match parse_m tokens 0 with
  | Ok (d, _) => Ok d
  | Err e => Err e
  end.

(** * Progress of the cursor *)

(** A cursor operation that never moves back, and that ends inside the
    token list whenever it moves. *)
Definition weak (tokens : list Token) {A} (m : PM A) : Prop :=
  forall i a j, m i = Ok (a, j) -> i <= j /\ (j = i \/ j <= List.length tokens).

(** A cursor operation that consumes at least one token and stays inside the
    token list. *)
Definition strict (tokens : list Token) {A} (m : PM A) : Prop :=
  forall i a j, m i = Ok (a, j) -> i < j /\ j <= List.length tokens.

(** [runs tokens m i a rest]: run at index [i], [m] returns [a] and leaves
    the cursor where the unread tokens are [rest]. *)
Definition runs (tokens : list Token) {A} (m : PM A) (i : nat) (a : A) (rest : list Token) : Prop :=
  exists j, m i = Ok (a, j) /\ skipn j tokens = rest.

(** * Source text: the token sequences the grammar derives

    A syntax tree of the DSL whose leaves are the raw lexemes (string
    literals with their quotes); [render_file] spells it as the token list a
    lexer produces, [kw] giving the lexeme of each keyword or punctuation
    token.  The [*_of] functions give the AST the spec describes for it:
    every sequence of the source in its source order, every string literal
    stored as [literal_text], and every mapping filled in source order with
    Python's [d[k] = v]. *)

Record SrcMember := { sm_name : string; sm_by_move : bool; sm_type : string }.

Inductive SrcEntry :=
| SMember (m : SrcMember)
| SImplement (name body : string).

Record SrcVariant := { sv_name : string; sv_entries : list SrcEntry }.

Record SrcAbstract := {
  sa_name : string;
  sa_members : list SrcMember;
  sa_functions : list (string * string);
  sa_first : SrcVariant;
  sa_rest : list SrcVariant }.

Inductive SrcItem :=
| STypeDef (name contents : string)
| SAbstract (a : SrcAbstract).

Record SrcFile := {
  sf_prelude : option string;
  sf_items : list SrcItem;
  sf_postlude : option string }.

Section Render.
Variable kw : TokenType -> string.

Definition tok (k : TokenType) : Token := mkToken k (kw k).
Definition ident (s : string) : Token := mkToken IDENTIFIER s.
Definition str (s : string) : Token := mkToken STRING_LITERAL s.

Definition render_member (m : SrcMember) : list Token :=
  ident (sm_name m) :: (if sm_by_move m then [tok BY_MOVE] else []) ++ [str (sm_type m)].

Definition render_entry (e : SrcEntry) : list Token :=
  match e with
  | SMember m => render_member m
  | SImplement n b => [tok IMPLEMENT; ident n; str b]
  end.

Definition render_variant (v : SrcVariant) : list Token :=
  ident (sv_name v) :: tok LEFT_PARENTHESIS
    :: flat_map render_entry (sv_entries v) ++ [tok RIGHT_PARENTHESIS].

Definition render_function (f : string * string) : list Token :=
  [tok FUNCTION; ident (fst f); str (snd f)].

Definition render_piped (v : SrcVariant) : list Token := tok PIPE :: render_variant v.

Definition render_abstract (a : SrcAbstract) : list Token :=
  ident (sa_name a) :: tok LEFT_PARENTHESIS
    :: flat_map render_member (sa_members a)
    ++ flat_map render_function (sa_functions a)
    ++ [tok RIGHT_PARENTHESIS; tok EQUALS]
    ++ render_variant (sa_first a)
    ++ flat_map render_piped (sa_rest a).

Definition render_item (it : SrcItem) : list Token :=
  match it with
  | STypeDef n c => [tok TYPE; ident n; str c]
  | SAbstract a => render_abstract a
  end.

Definition render_opt (o : option string) : list Token :=
  match o with Some s => [str s] | None => [] end.

Definition render_file (f : SrcFile) : list Token :=
  render_opt (sf_prelude f) ++ flat_map render_item (sf_items f)
    ++ render_opt (sf_postlude f) ++ [tok END_OF_INPUT].

End Render.

Definition member_of (m : SrcMember) : Member.t :=
  Member.mk (sm_name m) (sm_by_move m) (literal_text (sm_type m)).

Definition return_type_of (r : string) : option string :=
  let t := literal_text r in if Nat.ltb 0 (String.length t) then Some t else None.

Definition function_of (f : string * string) : PureVirtualFunction.t :=
  PureVirtualFunction.mk (fst f) (return_type_of (snd f)).

Definition entry_members (es : list SrcEntry) : list Member.t :=
  flat_map (fun e => match e with SMember m => [member_of m] | _ => [] end) es.

Definition entry_implementations (es : list SrcEntry) : list Implementation.t :=
  flat_map (fun e => match e with
                     | SImplement n b => [Implementation.mk n (literal_text b)]
                     | _ => [] end) es.

Definition variant_of (fs : list PureVirtualFunction.t) (v : SrcVariant) : PolymorphicType.t :=
  PolymorphicType.mk fs (entry_members (sv_entries v)) (entry_implementations (sv_entries v)).

(** A Python dictionary filled from the pairs of [l] in order. *)
Definition dict_of {V} (l : list (string * V)) : dict V :=
  fold_left (fun d kv => dict_set (fst kv) (snd kv) d) l [].

Definition sa_variants (a : SrcAbstract) : list SrcVariant := sa_first a :: sa_rest a.

Definition abstract_of (a : SrcAbstract) : AbstractType.t :=
  let fs := map function_of (sa_functions a) in
  AbstractType.mk (dict_of (map (fun v => (sv_name v, variant_of fs v)) (sa_variants a)))
    (map member_of (sa_members a)) fs.

Definition src_type_definitions (items : list SrcItem) : list (string * string) :=
  flat_map (fun it => match it with STypeDef n c => [(n, literal_text c)] | _ => [] end) items.

Definition src_abstracts (items : list SrcItem) : list SrcAbstract :=
  flat_map (fun it => match it with SAbstract a => [a] | _ => [] end) items.

Definition opt_text (o : option string) : string :=
  match o with Some s => literal_text s | None => "" end.

Definition file_of (f : SrcFile) : GeneratorDescription.t :=
  GeneratorDescription.mk (opt_text (sf_prelude f)) (src_type_definitions (sf_items f))
    (dict_of (map (fun a => (sa_name a, abstract_of a)) (src_abstracts (sf_items f))))
    (opt_text (sf_postlude f)).

(** The names of [xs] in the order of their first occurrence: the key order
    of a dictionary filled with them. *)
Definition dedup_first (xs : list string) : list string :=
  fold_left (fun acc x => if existsb (String.eqb x) acc then acc else acc ++ [x]) xs [].

(** Validity: the checks of [PolymorphicType.__init__] pass for every
    variant. *)
Definition valid_variant (fnames : list string) (v : SrcVariant) : Prop :=
  let inames := map Implementation.name (entry_implementations (sv_entries v)) in
  NoDup inames /\ (forall x, In x inames <-> In x fnames).

Definition valid_abstract (a : SrcAbstract) : Prop :=
  NoDup (map fst (sa_functions a)) /\ Forall (valid_variant (map fst (sa_functions a))) (sa_variants a).

(** A file is valid when its abstract types are; a lone string literal is
    read as the prelude, so a file without a prelude and without any item
    has no postlude either. *)
Definition valid_file (f : SrcFile) : Prop :=
  Forall valid_abstract (src_abstracts (sf_items f)) /\
  (sf_prelude f = None -> sf_items f = [] -> sf_postlude f = None).

(** * Runs of the file-level loop

    [file_steps tokens (n, tds, pts, i) (n', tds', pts', i')]: starting with
    fuel [n], the type definitions [tds] and the abstract types [pts] at
    index [i], the file-level loop of [parse] goes on, after a number of
    type definitions and abstract types, with fuel [n'], [tds'] and [pts']
    at index [i']. *)
Inductive file_steps (tokens : list Token)
  : nat * list (string * string) * dict AbstractType.t * nat ->
    nat * list (string * string) * dict AbstractType.t * nat -> Prop :=
| file_steps_refl s : file_steps tokens s s
| file_steps_type n tds pts i t td j s :
    nth_error tokens i = Some t -> type_ t = TYPE ->
    parse_type_definition tokens i = Ok (td, j) ->
    file_steps tokens (n, tds ++ [td], pts, j) s ->
    file_steps tokens (S n, tds, pts, i) s
| file_steps_abstract n tds pts i t name ab j s :
    nth_error tokens i = Some t -> type_ t = IDENTIFIER ->
    parse_polymorphic_type tokens i = Ok ((name, ab), j) ->
    file_steps tokens (n, tds, dict_set name ab pts, j) s ->
    file_steps tokens (S n, tds, pts, i) s.

(** * Basic facts about the cursor *)

Lemma bind_inv {A B} (m : PM A) (k : A -> PM B) i b j :
  bind m k i = Ok (b, j) -> exists a l, m i = Ok (a, l) /\ k a l = Ok (b, j).
Proof. unfold bind. destruct (m i) as [[a l]|e]; [eauto | discriminate]. Qed.

Lemma bind_err {A B} (m : PM A) (k : A -> PM B) i e :
  bind m k i = Err e -> m i = Err e \/ exists a l, m i = Ok (a, l) /\ k a l = Err e.
Proof. unfold bind. destruct (m i) as [[a l]|e']; [eauto | intros H; left; congruence]. Qed.

Lemma lift_inv {A} (r : result A) i a j : lift r i = Ok (a, j) -> r = Ok a /\ j = i.
Proof. unfold lift. destruct r; intros H; inversion H; auto. Qed.

Lemma current_inv tokens i c j :
  current tokens i = Ok (c, j) -> j = i /\ nth_error tokens i = Some c /\ i < List.length tokens.
Proof.
  unfold current. destruct (nth_error tokens i) eqn:E; intros H; inversion H; subst.
  repeat split; auto. apply nth_error_Some. congruence.
Qed.

Lemma is_end_of_input_inv tokens i e j :
  is_end_of_input tokens i = Ok (e, j) -> j = i.
Proof.
  unfold is_end_of_input, bind, current, ret.
  destruct (Nat.leb _ _); [congruence|].
  destruct (nth_error tokens i); congruence.
Qed.

Lemma consume_inv tokens ty i c j :
  consume tokens ty i = Ok (c, j) ->
  j = S i /\ nth_error tokens i = Some c /\ type_ c = ty /\ i < List.length tokens.
Proof.
  unfold consume. intros H.
  apply bind_inv in H as (e & l & He & H). apply is_end_of_input_inv in He; subst l.
  destruct e; [discriminate|].
  apply bind_inv in H as (c' & l & Hc & H). apply current_inv in Hc as (-> & Hn & Hlt).
  destruct (negb (TokenType_eqb (type_ c') ty)) eqn:Et; [discriminate|].
  apply bind_inv in H as (c'' & l & Hc & H). apply current_inv in Hc as (-> & Hn' & _).
  apply bind_inv in H as (u & l & Hn2 & H). unfold next in Hn2. inversion Hn2; subst.
  unfold ret in H. inversion H; subst.
  apply negb_false_iff, TokenType_eqb_eq in Et.
  rewrite Hn in Hn'. inversion Hn'; subst. auto.
Qed.

(** Forward reasoning on a successful run of the cursor operations. *)
Ltac forward_pm :=
  repeat match goal with
  | H : bind _ _ _ = Ok _ |- _ =>
      let a := fresh "a" in let l := fresh "l" in
      let H1 := fresh "H" in let H2 := fresh "H" in
      apply bind_inv in H as (a & l & H1 & H2)
  | H : ret _ _ = Ok _ |- _ => unfold ret in H; inversion H; subst; clear H
  | H : fail _ _ = Ok _ |- _ => discriminate H
  | H : next _ = Ok _ |- _ => unfold next in H; inversion H; subst; clear H
  | H : lift _ _ = Ok _ |- _ =>
      let H' := fresh "H" in apply lift_inv in H as (H' & ->)
  | H : current _ _ = Ok _ |- _ =>
      let H' := fresh "H" in let H'' := fresh "H" in
      apply current_inv in H as (-> & H' & H'')
  | H : is_end_of_input _ _ = Ok _ |- _ => apply is_end_of_input_inv in H; subst
  | H : consume _ _ _ = Ok _ |- _ =>
      let H' := fresh "H" in let H'' := fresh "H" in let H''' := fresh "H" in
      apply consume_inv in H as (-> & H' & H'' & H''')
  | H : (if ?b then _ else _) _ = Ok _ |- _ =>
      let E := fresh "E" in destruct b eqn:E
  | H : (let '(_, _) := ?p in _) _ = Ok _ |- _ => destruct p
  end.

Ltac use_steps L := repeat match goal with H : _ = Ok _ |- _ => apply L in H end.

(** * Progress: every loop body consumes at least one token *)

Section Steps.
Variable tokens : list Token.


Lemma strict_weak {A} (m : PM A) : strict tokens m -> weak tokens m.
Proof. intros H i a j E. apply H in E. lia. Qed.

Lemma parse_data_member_strict : strict tokens (parse_data_member tokens).
Proof. intros i a j H. unfold parse_data_member in H. forward_pm; lia. Qed.

Lemma parse_implementation_strict : strict tokens (parse_implementation tokens).
Proof. intros i a j H. unfold parse_implementation in H. forward_pm; lia. Qed.

Lemma parse_function_declaration_strict : strict tokens (parse_function_declaration tokens).
Proof. intros i a j H. unfold parse_function_declaration in H. forward_pm; lia. Qed.

Lemma parse_type_definition_strict : strict tokens (parse_type_definition tokens).
Proof. intros i a j H. unfold parse_type_definition in H. forward_pm; lia. Qed.

Lemma parse_postlude_strict : strict tokens (parse_postlude tokens).
Proof. intros i a j H. unfold parse_postlude in H. forward_pm; lia. Qed.

Lemma parse_subtype_body_weak n ms is : weak tokens (parse_subtype_body tokens n ms is).
Proof.
  revert ms is. induction n as [|n IH]; intros ms is i a j H; simpl in H; [discriminate|].
  forward_pm; use_steps parse_data_member_strict; use_steps parse_implementation_strict;
    use_steps IH; lia.
Qed.

Lemma parse_subtype_strict : strict tokens (parse_subtype tokens).
Proof.
  intros i a j H. unfold parse_subtype in H. forward_pm.
  use_steps parse_subtype_body_weak. lia.
Qed.

Lemma parse_base_members_weak n acc : weak tokens (parse_base_members tokens n acc).
Proof.
  revert acc. induction n as [|n IH]; intros acc i a j H; simpl in H; [discriminate|].
  forward_pm; use_steps parse_data_member_strict; use_steps IH; lia.
Qed.

Lemma parse_functions_weak n acc : weak tokens (parse_functions tokens n acc).
Proof.
  revert acc. induction n as [|n IH]; intros acc i a j H; simpl in H; [discriminate|].
  forward_pm; use_steps parse_function_declaration_strict; use_steps IH; lia.
Qed.

Lemma parse_polymorphic_header_strict : strict tokens (parse_polymorphic_header tokens).
Proof.
  intros i a j H. unfold parse_polymorphic_header in H. forward_pm.
  use_steps parse_base_members_weak. use_steps parse_functions_weak. lia.
Qed.

Lemma parse_variants_weak n fs st : weak tokens (parse_variants tokens n fs st).
Proof.
  revert st. induction n as [|n IH]; intros st i a j H; simpl in H; [discriminate|].
  forward_pm; use_steps parse_subtype_strict; use_steps IH; lia.
Qed.

Lemma parse_polymorphic_type_strict : strict tokens (parse_polymorphic_type tokens).
Proof.
  intros i a j H. unfold parse_polymorphic_type in H. forward_pm.
  use_steps parse_polymorphic_header_strict. use_steps parse_subtype_strict.
  use_steps parse_variants_weak. lia.
Qed.

End Steps.

(** * Termination: the fuel of [parse] is never exhausted *)

Section Fuel.
Variable tokens : list Token.

Lemma bind_noof {A B} (m : PM A) (k : A -> PM B) i :
  m i <> Err OutOfFuel ->
  (forall a j, m i = Ok (a, j) -> k a j <> Err OutOfFuel) ->
  bind m k i <> Err OutOfFuel.
Proof.
  unfold bind. destruct (m i) as [[a j]|e]; intros H1 H2; [eapply H2; reflexivity | congruence].
Qed.

Lemma current_noof i : current tokens i <> Err OutOfFuel.
Proof. unfold current. destruct (nth_error tokens i); discriminate. Qed.

Lemma is_end_of_input_noof i : is_end_of_input tokens i <> Err OutOfFuel.
Proof.
  unfold is_end_of_input. destruct (Nat.leb _ _); [discriminate|].
  apply bind_noof; [apply current_noof | intros; discriminate].
Qed.

Lemma init_noof fs ms is : PolymorphicType.init fs ms is <> Err OutOfFuel.
Proof.
  unfold PolymorphicType.init.
  repeat match goal with |- (if ?b then _ else _) <> _ => destruct b end; discriminate.
Qed.

Ltac noof :=
  repeat match goal with
  | |- bind _ _ _ <> _ => apply bind_noof; [ | let a := fresh "a" in let j := fresh "j" in
                                                let Hm := fresh "Hm" in intros a j Hm ]
  | |- (if ?b then _ else _) _ <> _ => destruct b
  | |- (let '(_, _) := ?p in _) _ <> _ => destruct p
  | |- (match ?p with _ => _ end) _ <> _ => destruct p
  | |- ret _ _ <> _ => discriminate
  | |- fail (ParserError _) _ <> _ => discriminate
  | |- next _ <> _ => discriminate
  | |- current _ _ <> _ => apply current_noof
  | |- is_end_of_input _ _ <> _ => apply is_end_of_input_noof
  | |- lift ?r _ <> _ =>
      unfold lift; let E := fresh "E" in let Heq := fresh "Heq" in
      destruct r eqn:E;
      [ discriminate | intros Heq; inversion Heq; subst; eapply init_noof; eassumption ]
  | |- (fun _ => _) _ <> _ => cbv beta
  end.

Lemma consume_noof ty i : consume tokens ty i <> Err OutOfFuel.
Proof. unfold consume. noof. Qed.

Lemma parse_data_member_noof i : parse_data_member tokens i <> Err OutOfFuel.
Proof. unfold parse_data_member. noof; apply consume_noof. Qed.

Lemma parse_implementation_noof i : parse_implementation tokens i <> Err OutOfFuel.
Proof. unfold parse_implementation. noof; apply consume_noof. Qed.

Lemma parse_function_declaration_noof i : parse_function_declaration tokens i <> Err OutOfFuel.
Proof. unfold parse_function_declaration. noof; apply consume_noof. Qed.

Lemma parse_type_definition_noof i : parse_type_definition tokens i <> Err OutOfFuel.
Proof. unfold parse_type_definition. noof; apply consume_noof. Qed.

Lemma parse_postlude_noof i : parse_postlude tokens i <> Err OutOfFuel.
Proof. unfold parse_postlude. noof. Qed.

Lemma parse_prelude_noof i : parse_prelude tokens i <> Err OutOfFuel.
Proof. unfold parse_prelude. noof. Qed.

Ltac loop_noof IH P S :=
  first [ apply P
        | use_steps current_inv; use_steps lift_inv; use_steps is_end_of_input_inv;
          use_steps S; apply IH; lia ].

Lemma parse_subtype_body_noof n ms is i :
  List.length tokens - i < n -> parse_subtype_body tokens n ms is i <> Err OutOfFuel.
Proof.
  revert ms is i. induction n as [|n IH]; intros ms is i Hn; [lia|]. simpl. noof.
  all: first [ loop_noof IH parse_data_member_noof parse_data_member_strict
             | loop_noof IH parse_implementation_noof parse_implementation_strict ].
Qed.

Lemma parse_subtype_noof i : parse_subtype tokens i <> Err OutOfFuel.
Proof.
  unfold parse_subtype. noof; try apply consume_noof.
  apply parse_subtype_body_noof. unfold fuel. lia.
Qed.

Lemma parse_base_members_noof n acc i :
  List.length tokens - i < n -> parse_base_members tokens n acc i <> Err OutOfFuel.
Proof.
  revert acc i. induction n as [|n IH]; intros acc i Hn; [lia|]. simpl. noof.
  all: loop_noof IH parse_data_member_noof parse_data_member_strict.
Qed.

Lemma parse_functions_noof n acc i :
  List.length tokens - i < n -> parse_functions tokens n acc i <> Err OutOfFuel.
Proof.
  revert acc i. induction n as [|n IH]; intros acc i Hn; [lia|]. simpl. noof.
  all: loop_noof IH parse_function_declaration_noof parse_function_declaration_strict.
Qed.

Lemma parse_polymorphic_header_noof i : parse_polymorphic_header tokens i <> Err OutOfFuel.
Proof.
  unfold parse_polymorphic_header. noof; try apply consume_noof.
  - apply parse_base_members_noof. unfold fuel. lia.
  - apply parse_functions_noof. unfold fuel. lia.
Qed.

Lemma parse_variants_noof n fs st i :
  List.length tokens - i < n -> parse_variants tokens n fs st i <> Err OutOfFuel.
Proof.
  revert st i. induction n as [|n IH]; intros st i Hn; [lia|]. simpl. noof.
  all: unfold next in *;
    repeat match goal with H : Ok _ = Ok _ |- _ => inversion H; subst; clear H end;
    loop_noof IH parse_subtype_noof parse_subtype_strict.
Qed.

Lemma parse_polymorphic_type_noof i : parse_polymorphic_type tokens i <> Err OutOfFuel.
Proof.
  unfold parse_polymorphic_type. noof.
  - apply parse_polymorphic_header_noof.
  - apply parse_subtype_noof.
  - apply parse_variants_noof. unfold fuel. lia.
Qed.

Lemma parse_file_level_noof n tds pts i :
  List.length tokens - i < n -> parse_file_level tokens n tds pts i <> Err OutOfFuel.
Proof.
  revert tds pts i. induction n as [|n IH]; intros tds pts i Hn; [lia|]. simpl. noof.
  all: first [ loop_noof IH parse_type_definition_noof parse_type_definition_strict
             | loop_noof IH parse_polymorphic_type_noof parse_polymorphic_type_strict
             | apply parse_postlude_noof ].
Qed.

End Fuel.

(** * The checks of [PolymorphicType.__init__] *)

Lemma nodup_length_le (xs : list string) : List.length (nodup string_dec xs) <= List.length xs.
Proof.
  induction xs as [|x xs IH]; simpl; [lia|].
  destruct (in_dec string_dec x xs); simpl; lia.
Qed.

(** [len(set(xs)) == len(xs)] exactly when [xs] has no duplicates. *)
Lemma set_len_NoDup (xs : list string) : set_len xs = List.length xs <-> NoDup xs.
Proof.
  unfold set_len. split.
  - induction xs as [|x xs IH]; simpl; intros H; [constructor|].
    destruct (in_dec string_dec x xs) as [Hin|Hin].
    + pose proof (nodup_length_le xs). lia.
    + simpl in H. constructor; auto.
  - intros H. now rewrite nodup_fixed_point.
Qed.

Lemma set_len_eqb_NoDup (xs : list string) :
  Nat.eqb (set_len xs) (List.length xs) = true <-> NoDup xs.
Proof. rewrite Nat.eqb_eq. apply set_len_NoDup. Qed.

Lemma existsb_eqb_In (x : string) ys : existsb (String.eqb x) ys = true <-> In x ys.
Proof.
  rewrite existsb_exists. split.
  - intros (y & Hy & E). apply String.eqb_eq in E. now subst.
  - intros H. exists x. split; auto. apply String.eqb_refl.
Qed.

(** [set(xs) != set(ys)] is false exactly when both name the same set. *)
Lemma set_neqb_false (xs ys : list string) :
  set_neqb xs ys = false <-> (forall x, In x xs <-> In x ys).
Proof.
  unfold set_neqb. rewrite negb_false_iff, andb_true_iff, !forallb_forall.
  split.
  - intros [H1 H2] x. split; intros Hx.
    + apply existsb_eqb_In. auto.
    + apply existsb_eqb_In. auto.
  - intros H. split; intros x Hx; apply existsb_eqb_In, H; auto.
Qed.

Lemma init_inv fs ms is pt :
  PolymorphicType.init fs ms is = Ok pt ->
  pt = PolymorphicType.mk fs ms is /\
  NoDup (map PureVirtualFunction.name fs) /\ NoDup (map Implementation.name is) /\
  (forall x, In x (map Implementation.name is) <-> In x (map PureVirtualFunction.name fs)).
Proof.
  unfold PolymorphicType.init.
  destruct (negb (Nat.eqb (set_len _) _)) eqn:E1; [discriminate|].
  destruct (negb (Nat.eqb (set_len (map Implementation.name is)) _)) eqn:E2; [discriminate|].
  destruct (set_neqb _ _) eqn:E3; [discriminate|].
  intros H. inversion H; subst.
  apply negb_false_iff, set_len_eqb_NoDup in E1, E2.
  rewrite set_neqb_false in E3.
  repeat split; auto; apply E3.
Qed.

(** The three checks, each one reached only when the earlier ones pass. *)
Lemma init_cases fs ms is :
  let fnames := map PureVirtualFunction.name fs in
  let inames := map Implementation.name is in
  PolymorphicType.init fs ms is =
    if negb (Nat.eqb (set_len fnames) (List.length fnames))
    then Err (ParserError DuplicatePureVirtualFunctions)
    else if negb (Nat.eqb (set_len inames) (List.length inames))
    then Err (ParserError DuplicateImplementation)
    else if set_neqb fnames inames then Err (ParserError NotAllImplemented)
    else Ok (PolymorphicType.mk fs ms is).
Proof. reflexivity. Qed.

Lemma init_valid fs ms is :
  NoDup (map PureVirtualFunction.name fs) -> NoDup (map Implementation.name is) ->
  (forall x, In x (map Implementation.name is) <-> In x (map PureVirtualFunction.name fs)) ->
  PolymorphicType.init fs ms is = Ok (PolymorphicType.mk fs ms is).
Proof.
  intros H1 H2 H3. rewrite init_cases. cbv zeta.
  apply set_len_eqb_NoDup in H1, H2. rewrite H1, H2. simpl.
  replace (set_neqb _ _) with false; [reflexivity|].
  symmetry. apply set_neqb_false. intros x. rewrite H3. tauto.
Qed.

(** * Facts about the file-level loop *)

Lemma is_end_of_input_false tokens i t :
  nth_error tokens i = Some t -> type_ t <> END_OF_INPUT ->
  is_end_of_input tokens i = Ok (false, i).
Proof.
  intros Hn Ht. unfold is_end_of_input.
  assert (i < List.length tokens) by (apply nth_error_Some; congruence).
  destruct (Nat.leb_spec (List.length tokens) i); [lia|].
  unfold bind, current, ret. rewrite Hn.
  destruct (TokenType_eqb (type_ t) END_OF_INPUT) eqn:E; [|reflexivity].
  apply TokenType_eqb_eq in E. contradiction.
Qed.

Lemma is_end_of_input_total tokens i :
  exists b, is_end_of_input tokens i = Ok (b, i).
Proof.
  unfold is_end_of_input. destruct (Nat.leb_spec (List.length tokens) i); [eauto|].
  unfold bind, current, ret.
  destruct (nth_error tokens i) eqn:E; [eauto|].
  apply nth_error_None in E. lia.
Qed.

Lemma file_steps_result tokens s s' :
  file_steps tokens s s' ->
  let '(n, tds, pts, i) := s in let '(n', tds', pts', i') := s' in
  parse_file_level tokens n tds pts i = parse_file_level tokens n' tds' pts' i'.
Proof.
  induction 1 as [[[[n tds] pts] i]
                 | n tds pts i t td j s Hn Ht Hp Hs IH
                 | n tds pts i t name ab j s Hn Ht Hp Hs IH]; [reflexivity| |];
    destruct s as [[[n' tds'] pts'] i']; rewrite <- IH; cbn [parse_file_level];
    unfold bind at 1; rewrite (is_end_of_input_false _ _ _ Hn) by congruence; cbv beta iota;
    unfold bind at 1; unfold current at 1; rewrite Hn; cbv beta iota; rewrite Ht;
    unfold bind at 1; rewrite Hp; reflexivity.
Qed.

(** * Every variant of a parsed abstract type implements exactly its operations *)

Lemma dict_set_Forall {V} (P : string * V -> Prop) k v d :
  P (k, v) -> Forall P d -> Forall P (dict_set k v d).
Proof.
  intros Hkv Hd. induction Hd as [|[k' v'] d Hx Hd IH]; simpl; [auto|].
  destruct (String.eqb k k'); constructor; auto.
Qed.

Ltac use_init :=
  match goal with
  | Hi : PolymorphicType.init _ _ _ = Ok _ |- _ =>
      let Hx := fresh "Hx" in apply init_inv in Hi as (-> & _ & _ & Hx); exact Hx
  end.

Section Invariant.
Variable tokens : list Token.

Let implements_exactly (fs : list PureVirtualFunction.t) (kv : string * PolymorphicType.t) :=
  forall x, In x (map Implementation.name (PolymorphicType.implementations (snd kv))) <->
            In x (map PureVirtualFunction.name fs).

Lemma parse_variants_exact n fs st i st' j :
  parse_variants tokens n fs st i = Ok (st', j) ->
  Forall (implements_exactly fs) st -> Forall (implements_exactly fs) st'.
Proof.
  revert st i. induction n as [|n IH]; intros st i H Hst; simpl in H; [discriminate|].
  forward_pm.
  - eapply IH; [eassumption|]. apply dict_set_Forall; auto.
    use_init.
  - exact Hst.
Qed.

Lemma parse_polymorphic_type_exact i name ab j :
  parse_polymorphic_type tokens i = Ok ((name, ab), j) ->
  Forall (implements_exactly (AbstractType.pure_virtual_functions ab)) (AbstractType.sub_types ab).
Proof.
  intros H. unfold parse_polymorphic_type in H. forward_pm. simpl.
  eapply parse_variants_exact; [eassumption|].
  apply dict_set_Forall; [|constructor].
  use_init.
Qed.

Let abstract_exact (kv : string * AbstractType.t) :=
  Forall (implements_exactly (AbstractType.pure_virtual_functions (snd kv)))
         (AbstractType.sub_types (snd kv)).

Lemma parse_file_level_exact n tds pts i tds' pts' post j :
  parse_file_level tokens n tds pts i = Ok ((tds', pts', post), j) ->
  Forall abstract_exact pts -> Forall abstract_exact pts'.
Proof.
  revert tds pts i. induction n as [|n IH]; intros tds pts i H Hpts; simpl in H; [discriminate|].
  forward_pm; [assumption|].
  destruct (type_ a0); forward_pm; try assumption.
  - eapply IH; [eassumption|]. apply dict_set_Forall; auto.
    eapply parse_polymorphic_type_exact. eassumption.
  - eapply IH; eassumption.
Qed.

Lemma parse_exact d :
  parse tokens = Ok d -> Forall abstract_exact (GeneratorDescription.abstract_types d).
Proof.
  unfold parse, parse_m. destruct (bind _ _ 0) as [[d' j]|] eqn:E; [|discriminate].
  intros H; inversion H; subst. forward_pm. simpl.
  eapply parse_file_level_exact; [eassumption | constructor].
Qed.

End Invariant.

(** * Completeness: the parser accepts every valid source text *)

Lemma skipn_cons_inv (l : list Token) i t r :
  skipn i l = t :: r -> nth_error l i = Some t /\ skipn (S i) l = r.
Proof.
  intros H. split.
  - rewrite <- (Nat.add_0_r i), <- nth_error_skipn, H. reflexivity.
  - change (S i) with (1 + i). rewrite <- skipn_skipn, H. reflexivity.
Qed.

Section Runs.
Variable tokens : list Token.

Lemma runs_bind {A B} (m : PM A) (k : A -> PM B) i a r b r' :
  runs tokens m i a r ->
  (forall j, skipn j tokens = r -> runs tokens (k a) j b r') ->
  runs tokens (bind m k) i b r'.
Proof.
  intros (j & Hm & Hj) Hk. destruct (Hk j Hj) as (j' & Hk' & Hj').
  exists j'. unfold bind. rewrite Hm. auto.
Qed.

Lemma runs_ret {A} (a : A) i r : skipn i tokens = r -> runs tokens (ret a) i a r.
Proof. intros H. exists i. auto. Qed.

Lemma runs_current i t r : skipn i tokens = t :: r -> runs tokens (current tokens) i t (t :: r).
Proof.
  intros H. exists i. split; auto. unfold current.
  apply skipn_cons_inv in H as [-> _]. reflexivity.
Qed.

Lemma runs_next i t r : skipn i tokens = t :: r -> runs tokens next i tt r.
Proof. intros H. exists (S i). split; [reflexivity|]. apply skipn_cons_inv in H. apply H. Qed.

Lemma runs_is_end_false i t r :
  skipn i tokens = t :: r -> type_ t <> END_OF_INPUT -> runs tokens (is_end_of_input tokens) i false (t :: r).
Proof.
  intros H Ht. exists i. split; auto.
  apply is_end_of_input_false with (t := t); auto. apply skipn_cons_inv in H. apply H.
Qed.

Lemma runs_is_end_true i t r :
  skipn i tokens = t :: r -> type_ t = END_OF_INPUT -> runs tokens (is_end_of_input tokens) i true (t :: r).
Proof.
  intros H Ht. exists i. split; auto. apply skipn_cons_inv in H as [Hn _].
  unfold is_end_of_input.
  assert (i < List.length tokens) by (apply nth_error_Some; congruence).
  destruct (Nat.leb_spec (List.length tokens) i); [lia|].
  unfold bind, current, ret. rewrite Hn, Ht. reflexivity.
Qed.

Lemma runs_consume ty i t r :
  skipn i tokens = t :: r -> type_ t = ty -> ty <> END_OF_INPUT ->
  runs tokens (consume tokens ty) i t r.
Proof.
  intros H Ht Hty. unfold consume.
  eapply runs_bind; [apply runs_is_end_false; [eassumption | congruence]|]. intros j Hj.
  eapply runs_bind; [apply runs_current; eassumption|]. intros j' Hj'.
  replace (negb (TokenType_eqb (type_ t) ty)) with false
    by (symmetry; apply negb_false_iff, TokenType_eqb_eq; auto).
  eapply runs_bind; [apply runs_current; eassumption|]. intros j'' Hj''.
  eapply runs_bind; [eapply runs_next; eassumption|]. intros k Hk.
  apply runs_ret. exact Hk.
Qed.

Lemma runs_current_bind {B} (k : Token -> PM B) i t r b r' :
  skipn i tokens = t :: r -> runs tokens (k t) i b r' ->
  runs tokens (bind (current tokens) k) i b r'.
Proof.
  intros H (j & Hk & Hj). exists j. split; auto. unfold bind, current.
  apply skipn_cons_inv in H as [-> _]. exact Hk.
Qed.

Lemma runs_is_end_false_bind {B} (k : bool -> PM B) i t r b r' :
  skipn i tokens = t :: r -> type_ t <> END_OF_INPUT -> runs tokens (k false) i b r' ->
  runs tokens (bind (is_end_of_input tokens) k) i b r'.
Proof.
  intros H Ht (j & Hk & Hj). exists j. split; auto. unfold bind.
  apply skipn_cons_inv in H as [Hn _]. rewrite (is_end_of_input_false _ _ _ Hn Ht). exact Hk.
Qed.

Lemma runs_is_end_true_bind {B} (k : bool -> PM B) i t r b r' :
  skipn i tokens = t :: r -> type_ t = END_OF_INPUT -> runs tokens (k true) i b r' ->
  runs tokens (bind (is_end_of_input tokens) k) i b r'.
Proof.
  intros H Ht Hk. eapply runs_bind; [eapply runs_is_end_true; eassumption|].
  intros j Hj. destruct Hk as (j' & Hk & Hj'). exists j'. split; auto.
  destruct (runs_is_end_true i t r H Ht) as (j0 & Hi & Hj0).
  apply is_end_of_input_inv in Hi. subst j0. rewrite <- Hj in H.
  assert (j = i).
  { apply (f_equal (@List.length Token)) in H. rewrite !length_skipn in H.
    apply skipn_cons_inv in Hj as [Hn _]. assert (j < List.length tokens) by (apply nth_error_Some; congruence).
    apply skipn_cons_inv in Hj0 as [Hn' _]. assert (i < List.length tokens) by (apply nth_error_Some; congruence).
    lia. }
  subst. exact Hk.
Qed.

Lemma runs_lift {A} (r : result A) a i rest :
  r = Ok a -> skipn i tokens = rest -> runs tokens (lift r) i a rest.
Proof. intros -> H. exists i. auto. Qed.

End Runs.

Ltac go :=
  repeat first
  [ progress cbn [ident str tok TokenType_eqb type_ lexeme negb fst snd] in *
  | match goal with
    | |- runs _ (bind (consume _ _) _) _ _ _ =>
        eapply runs_bind;
        [ eapply runs_consume; [eassumption | reflexivity | discriminate]
        | let j := fresh "j" in let Hj := fresh "Hj" in intros j Hj ]
    | |- runs _ (bind (current _) _) _ _ _ => eapply runs_current_bind; [eassumption|]
    | |- runs _ (bind (is_end_of_input _) _) _ _ _ =>
        first [ eapply runs_is_end_false_bind; [eassumption | discriminate |]
              | eapply runs_is_end_true_bind; [eassumption | reflexivity |] ]
    | |- runs _ (bind next _) _ _ _ =>
        eapply runs_bind; [ eapply runs_next; eassumption
                          | let j := fresh "j" in let Hj := fresh "Hj" in intros j Hj ]
    | |- runs _ (ret _) _ _ _ => apply runs_ret; eassumption
    | |- runs _ (bind (ret _) _) _ _ _ =>
        eapply runs_bind; [ apply runs_ret; eassumption
                          | let j := fresh "j" in let Hj := fresh "Hj" in intros j Hj ]
    | |- runs _ (bind (fun _ => Ok (_, _)) _) _ _ _ =>
        eapply runs_bind; [ apply runs_ret; eassumption
                          | let j := fresh "j" in let Hj := fresh "Hj" in intros j Hj ]
    end ].

Lemma flat_map_length_ge {A B} (f : A -> list B) xs :
  (forall x, 1 <= List.length (f x)) -> List.length xs <= List.length (flat_map f xs).
Proof.
  intros Hf. induction xs as [|x xs IH]; simpl; [lia|].
  rewrite length_app. specialize (Hf x). lia.
Qed.

Lemma skipn_eq_length (l r : list Token) i : skipn i l = r -> List.length r <= List.length l.
Proof. intros <-. rewrite length_skipn. lia. Qed.

Lemma kind_false (k k' : TokenType) : k <> k' -> TokenType_eqb k k' = false.
Proof. intros H. destruct (TokenType_eqb k k') eqn:E; auto. apply TokenType_eqb_eq in E. contradiction. Qed.

Section Complete.
Variable kw : TokenType -> string.
Variable tokens : list Token.

Lemma parse_data_member_runs i m rest :
  skipn i tokens = render_member kw m ++ rest ->
  runs tokens (parse_data_member tokens) i (member_of m) rest.
Proof.
  intros H. unfold render_member in H. unfold parse_data_member, member_of.
  destruct (sm_by_move m); simpl in H; go.
Qed.

Lemma parse_implementation_runs i n b rest :
  skipn i tokens = render_entry kw (SImplement n b) ++ rest ->
  runs tokens (parse_implementation tokens) i (Implementation.mk n (literal_text b)) rest.
Proof. intros H. simpl in H. unfold parse_implementation. go. Qed.

Lemma parse_function_declaration_runs i f rest :
  skipn i tokens = render_function kw f ++ rest ->
  runs tokens (parse_function_declaration tokens) i (function_of f) rest.
Proof. intros H. simpl in H. unfold parse_function_declaration. go. Qed.

Lemma parse_subtype_body_runs es : forall n ms is i t r,
  skipn i tokens = flat_map (render_entry kw) es ++ t :: r ->
  type_ t <> IDENTIFIER -> type_ t <> IMPLEMENT -> List.length es < n ->
  runs tokens (parse_subtype_body tokens n ms is) i
       (ms ++ entry_members es, is ++ entry_implementations es) (t :: r).
Proof.
  induction es as [|e es IH]; intros n ms is i t r H Ht1 Ht2 Hn;
    (destruct n as [|n]; [simpl in Hn; lia|]); simpl.
  - simpl in H. rewrite !app_nil_r. go.
    rewrite (kind_false _ _ Ht1). go. rewrite (kind_false _ _ Ht2). go.
  - destruct e as [m|nm b]; cbn [flat_map render_entry] in H; rewrite <- app_assoc in H.
    + pose proof H as H'. unfold render_member in H'. simpl in H'.
      go. eapply runs_bind.
      { apply parse_data_member_runs. exact H. }
      intros j Hj. cbn [entry_members entry_implementations flat_map].
      rewrite ?app_nil_l, ?app_assoc. simpl in Hn. apply IH; auto. lia.
    + pose proof H as H'. simpl in H'.
      go. eapply runs_bind.
      { apply parse_implementation_runs. exact H. }
      intros j Hj. cbn [entry_members entry_implementations flat_map].
      rewrite ?app_nil_l, ?app_assoc. simpl in Hn. apply IH; auto. lia.
Qed.

Lemma fuel_bound {A} (f : A -> list Token) xs i rest :
  (forall x, 1 <= List.length (f x)) ->
  skipn i tokens = flat_map f xs ++ rest -> List.length xs < fuel tokens.
Proof.
  intros Hf H. apply skipn_eq_length in H. rewrite length_app in H.
  pose proof (flat_map_length_ge f xs Hf). unfold fuel. lia.
Qed.

Lemma render_entry_nonempty e : 1 <= List.length (render_entry kw e).
Proof. destruct e; simpl; lia. Qed.

Lemma render_member_nonempty m : 1 <= List.length (render_member kw m).
Proof. unfold render_member. simpl. lia. Qed.

Lemma parse_subtype_runs i v rest :
  skipn i tokens = render_variant kw v ++ rest ->
  runs tokens (parse_subtype tokens) i
       (sv_name v, entry_members (sv_entries v), entry_implementations (sv_entries v)) rest.
Proof.
  intros H. unfold render_variant in H. simpl in H. rewrite <- app_assoc in H. simpl in H.
  unfold parse_subtype. go.
  eapply runs_bind.
  { apply parse_subtype_body_runs with (t := tok kw RIGHT_PARENTHESIS);
      [eassumption | discriminate | discriminate |].
    eapply fuel_bound; [apply render_entry_nonempty | eassumption]. }
  intros j' Hj'. go.
Qed.

Lemma parse_base_members_runs ms : forall n acc i t r,
  skipn i tokens = flat_map (render_member kw) ms ++ t :: r ->
  type_ t <> IDENTIFIER -> List.length ms < n ->
  runs tokens (parse_base_members tokens n acc) i (acc ++ map member_of ms) (t :: r).
Proof.
  induction ms as [|m ms IH]; intros n acc i t r H Ht Hn;
    (destruct n as [|n]; [simpl in Hn; lia|]); simpl.
  - simpl in H. rewrite app_nil_r. go. rewrite (kind_false _ _ Ht). go.
  - cbn [flat_map] in H. rewrite <- app_assoc in H.
    pose proof H as H'. unfold render_member in H'. simpl in H'.
    go. eapply runs_bind; [apply parse_data_member_runs; exact H|].
    intros j Hj. replace (acc ++ member_of m :: map member_of ms)
      with ((acc ++ [member_of m]) ++ map member_of ms) by (rewrite <- app_assoc; reflexivity).
    simpl in Hn. apply IH; auto. lia.
Qed.

Lemma parse_functions_runs fs : forall n acc i t r,
  skipn i tokens = flat_map (render_function kw) fs ++ t :: r ->
  type_ t <> FUNCTION -> List.length fs < n ->
  runs tokens (parse_functions tokens n acc) i (acc ++ map function_of fs) (t :: r).
Proof.
  induction fs as [|f fs IH]; intros n acc i t r H Ht Hn;
    (destruct n as [|n]; [simpl in Hn; lia|]); simpl.
  - simpl in H. rewrite app_nil_r. go. rewrite (kind_false _ _ Ht). go.
  - cbn [flat_map] in H. rewrite <- app_assoc in H. pose proof H as H'. simpl in H'.
    go. eapply runs_bind; [apply parse_function_declaration_runs; exact H|].
    intros j Hj. replace (acc ++ function_of f :: map function_of fs)
      with ((acc ++ [function_of f]) ++ map function_of fs) by (rewrite <- app_assoc; reflexivity).
    simpl in Hn. apply IH; auto. lia.
Qed.

Lemma render_function_nonempty f : 1 <= List.length (render_function kw f).
Proof. simpl. lia. Qed.

Lemma render_piped_nonempty v : 1 <= List.length (render_piped kw v).
Proof. simpl. lia. Qed.

Lemma parse_polymorphic_header_runs i name ms fs rest :
  skipn i tokens = ident name :: tok kw LEFT_PARENTHESIS
    :: flat_map (render_member kw) ms ++ flat_map (render_function kw) fs
    ++ [tok kw RIGHT_PARENTHESIS; tok kw EQUALS] ++ rest ->
  runs tokens (parse_polymorphic_header tokens) i
       (ident name, map member_of ms, map function_of fs) rest.
Proof.
  intros H. unfold parse_polymorphic_header. go.
  assert (Hb : runs tokens (parse_base_members tokens (fuel tokens) []) j0 (map member_of ms)
                 (flat_map (render_function kw) fs ++
                  [tok kw RIGHT_PARENTHESIS; tok kw EQUALS] ++ rest)).
  { destruct fs as [|f fs]; cbn [flat_map] in Hj0 |- *; rewrite ?app_nil_l in Hj0.
    - cbn [app]. rewrite <- (app_nil_l (map member_of ms)). apply parse_base_members_runs with (t := tok kw RIGHT_PARENTHESIS);
        [exact Hj0 | discriminate |].
      eapply fuel_bound; [apply render_member_nonempty | exact Hj0].
    - rewrite <- app_assoc in Hj0 |- *. cbn [app render_function].
      rewrite <- (app_nil_l (map member_of ms)). apply parse_base_members_runs with (t := tok kw FUNCTION); [exact Hj0 | discriminate |].
      eapply fuel_bound; [apply render_member_nonempty | exact Hj0]. }
  eapply runs_bind; [exact Hb|].
  intros j1 Hj1.
  eapply runs_bind.
  { apply parse_functions_runs with (t := tok kw RIGHT_PARENTHESIS); [exact Hj1 | discriminate |].
    eapply fuel_bound; [apply render_function_nonempty | exact Hj1]. }
  intros j2 Hj2. simpl. go.
Qed.

Lemma valid_init fns v :
  NoDup (map fst fns) -> valid_variant (map fst fns) v ->
  PolymorphicType.init (map function_of fns) (entry_members (sv_entries v))
    (entry_implementations (sv_entries v)) = Ok (variant_of (map function_of fns) v).
Proof.
  intros Hf [Hi Hs]. apply init_valid.
  - rewrite map_map. exact Hf.
  - exact Hi.
  - rewrite map_map. exact Hs.
Qed.

Lemma parse_variants_runs fns vs : forall n st i t r,
  skipn i tokens = flat_map (render_piped kw) vs ++ t :: r ->
  type_ t <> PIPE -> NoDup (map fst fns) ->
  Forall (valid_variant (map fst fns)) vs -> List.length vs < n ->
  runs tokens (parse_variants tokens n (map function_of fns) st) i
       (fold_left (fun d kv => dict_set (fst kv) (snd kv) d)
                  (map (fun v => (sv_name v, variant_of (map function_of fns) v)) vs) st)
       (t :: r).
Proof.
  induction vs as [|v vs IH]; intros n st i t r H Ht Hf Hv Hn;
    (destruct n as [|n]; [simpl in Hn; lia|]); simpl.
  - simpl in H. go. rewrite (kind_false _ _ Ht). go.
  - cbn [flat_map] in H. rewrite <- app_assoc in H. unfold render_piped in H.
    rewrite <- app_comm_cons in H. inversion Hv as [|? ? Hv1 Hvs]; subst.
    go. eapply runs_bind; [apply parse_subtype_runs; eassumption|].
    intros j' Hj'. cbv beta iota.
    eapply runs_bind; [apply runs_lift; [apply valid_init; assumption | exact Hj']|].
    intros j'' Hj''. simpl in Hn. apply IH; auto. lia.
Qed.

Lemma parse_polymorphic_type_runs i a t r :
  skipn i tokens = render_abstract kw a ++ t :: r -> type_ t <> PIPE -> valid_abstract a ->
  runs tokens (parse_polymorphic_type tokens) i (sa_name a, abstract_of a) (t :: r).
Proof.
  intros H0 Ht [Hf Hv].
  assert (H : skipn i tokens = ident (sa_name a) :: tok kw LEFT_PARENTHESIS
    :: flat_map (render_member kw) (sa_members a) ++ flat_map (render_function kw) (sa_functions a)
    ++ [tok kw RIGHT_PARENTHESIS; tok kw EQUALS]
    ++ (render_variant kw (sa_first a) ++ (flat_map (render_piped kw) (sa_rest a) ++ t :: r)))
    by (rewrite H0; unfold render_abstract;
        repeat (rewrite <- app_assoc || rewrite <- app_comm_cons); reflexivity).
  clear H0. unfold sa_variants in Hv. inversion Hv as [|? ? Hv1 Hvs]; subst.
  unfold parse_polymorphic_type.
  eapply runs_bind; [apply parse_polymorphic_header_runs; exact H|]. intros j Hj. cbv beta iota.
  eapply runs_bind; [apply parse_subtype_runs; exact Hj|]. intros j' Hj'. cbv beta iota.
  eapply runs_bind; [apply runs_lift; [apply valid_init; assumption | exact Hj']|].
  intros j'' Hj''.
  eapply runs_bind.
  { apply parse_variants_runs with (vs := sa_rest a); [exact Hj'' | exact Ht | exact Hf | exact Hvs |].
    eapply fuel_bound; [apply render_piped_nonempty | exact Hj'']. }
  intros j3 Hj3. apply runs_ret. exact Hj3.
Qed.

Lemma parse_type_definition_runs i n c rest :
  skipn i tokens = render_item kw (STypeDef n c) ++ rest ->
  runs tokens (parse_type_definition tokens) i (n, literal_text c) rest.
Proof. intros H. simpl in H. unfold parse_type_definition. go. Qed.

Lemma follow_not_pipe items post :
  exists t r, flat_map (render_item kw) items ++ render_opt post ++ [tok kw END_OF_INPUT] = t :: r
              /\ type_ t <> PIPE.
Proof.
  destruct items as [|[n c|a] items].
  - destruct post; simpl; eexists _, _; (split; [reflexivity | discriminate]).
  - eexists _, _; split; [reflexivity | discriminate].
  - eexists _, _; split; [simpl; unfold render_abstract; reflexivity | discriminate].
Qed.

Lemma render_item_nonempty it : 1 <= List.length (render_item kw it).
Proof. destruct it; simpl; [|unfold render_abstract; simpl]; lia. Qed.

Lemma parse_file_level_runs post items : forall n tds pts i,
  skipn i tokens = flat_map (render_item kw) items ++ render_opt post ++ [tok kw END_OF_INPUT] ->
  Forall valid_abstract (src_abstracts items) -> List.length items < n ->
  runs tokens (parse_file_level tokens n tds pts) i
       (tds ++ src_type_definitions items,
        fold_left (fun d kv => dict_set (fst kv) (snd kv) d)
                  (map (fun a => (sa_name a, abstract_of a)) (src_abstracts items)) pts,
        opt_text post)
       [tok kw END_OF_INPUT].
Proof.
  induction items as [|it items IH]; intros n tds pts i H Hv Hn;
    (destruct n as [|n]; [simpl in Hn; lia|]); cbn [parse_file_level].
  - rewrite app_nil_r. simpl in H. destruct post as [p|]; simpl in H; go.
    eapply runs_bind; [unfold parse_postlude; go|]. intros j Hj. apply runs_ret. exact Hj.
  - cbn [flat_map] in H. rewrite <- app_assoc in H. simpl in Hn.
    destruct it as [nm c|a].
    + pose proof H as H'. simpl in H'. go.
      eapply runs_bind; [apply parse_type_definition_runs; exact H|].
      intros j Hj.
      change (src_abstracts (STypeDef nm c :: items)) with (src_abstracts items).
      change (src_type_definitions (STypeDef nm c :: items))
        with ((nm, literal_text c) :: src_type_definitions items).
      replace (tds ++ (nm, literal_text c) :: src_type_definitions items)
        with ((tds ++ [(nm, literal_text c)]) ++ src_type_definitions items)
        by (rewrite <- app_assoc; reflexivity).
      apply (IH n (tds ++ [(nm, literal_text c)])); auto. lia.
    + pose proof H as H'. unfold render_item, render_abstract in H'. simpl in H'. go.
      destruct (follow_not_pipe items post) as (t & r & Ef & Ht).
      change (src_abstracts (SAbstract a :: items)) with (a :: src_abstracts items) in Hv.
      apply Forall_cons_iff in Hv as [Hva Hvs].
      eapply runs_bind.
      { apply parse_polymorphic_type_runs with (t := t) (r := r);
          [rewrite H, Ef; reflexivity | exact Ht | exact Hva]. }
      intros j Hj. cbv beta iota. rewrite <- Ef in Hj.
      change (src_abstracts (SAbstract a :: items)) with (a :: src_abstracts items).
      change (src_type_definitions (SAbstract a :: items)) with (src_type_definitions items).
      apply (IH n tds (dict_set (sa_name a) (abstract_of a) pts)); auto. lia.
Qed.

Lemma follow_not_string items post :
  (items = [] -> post = None) ->
  exists t r, flat_map (render_item kw) items ++ render_opt post ++ [tok kw END_OF_INPUT] = t :: r
              /\ type_ t <> STRING_LITERAL.
Proof.
  intros Hp. destruct items as [|[n c|a] items].
  - rewrite (Hp eq_refl). simpl. eexists _, _; (split; [reflexivity | discriminate]).
  - eexists _, _; split; [reflexivity | discriminate].
  - eexists _, _; split; [simpl; unfold render_abstract; reflexivity | discriminate].
Qed.

Lemma parse_prelude_none i t r :
  skipn i tokens = t :: r -> type_ t <> STRING_LITERAL -> runs tokens (parse_prelude tokens) i "" (t :: r).
Proof.
  intros H Ht. unfold parse_prelude. eapply runs_current_bind; [exact H|].
  rewrite kind_false by exact Ht. apply runs_ret; exact H.
Qed.

Lemma parse_m_runs f :
  tokens = render_file kw f -> valid_file f ->
  runs tokens (parse_m tokens) 0 (file_of f) [tok kw END_OF_INPUT].
Proof.
  intros E [Hv Hnone]. unfold parse_m, file_of.
  assert (Hloop : forall i, skipn i tokens =
      flat_map (render_item kw) (sf_items f) ++ render_opt (sf_postlude f) ++ [tok kw END_OF_INPUT] ->
      runs tokens (parse_file_level tokens (fuel tokens) [] [])  i
        ([] ++ src_type_definitions (sf_items f),
         dict_of (map (fun a => (sa_name a, abstract_of a)) (src_abstracts (sf_items f))),
         opt_text (sf_postlude f)) [tok kw END_OF_INPUT]).
  { intros i Hi. apply parse_file_level_runs; auto.
    eapply fuel_bound; [apply render_item_nonempty | exact Hi]. }
  assert (Hend : forall j p, skipn j tokens = [tok kw END_OF_INPUT] ->
      runs tokens
        (e <- is_end_of_input tokens;;
         if negb e then fail (ParserError PostludeNotLast)
         else ret (GeneratorDescription.mk p (src_type_definitions (sf_items f))
                     (dict_of (map (fun a => (sa_name a, abstract_of a)) (src_abstracts (sf_items f))))
                     (opt_text (sf_postlude f))))
        j
        (GeneratorDescription.mk p (src_type_definitions (sf_items f))
           (dict_of (map (fun a => (sa_name a, abstract_of a)) (src_abstracts (sf_items f))))
           (opt_text (sf_postlude f)))
        [tok kw END_OF_INPUT]).
  { intros j p Hj. go. }
  destruct (sf_prelude f) as [p|] eqn:Ep.
  - assert (H0 : skipn 0 tokens = str p :: (flat_map (render_item kw) (sf_items f)
                   ++ render_opt (sf_postlude f) ++ [tok kw END_OF_INPUT]))
      by (rewrite E; unfold render_file; rewrite Ep; reflexivity).
    eapply runs_bind; [unfold parse_prelude; go|].
    intros j Hj. eapply runs_bind; [exact (Hloop j Hj)|]. intros k Hk. exact (Hend k _ Hk).
  - destruct (follow_not_string (sf_items f) (sf_postlude f)) as (t & r & Ef & Ht); [auto|].
    assert (H0 : skipn 0 tokens = t :: r)
      by (rewrite E, <- Ef; unfold render_file; rewrite Ep; reflexivity).
    eapply runs_bind; [exact (parse_prelude_none 0 t r H0 Ht)|].
    intros j Hj. rewrite <- Ef in Hj.
    eapply runs_bind; [exact (Hloop j Hj)|]. intros k Hk. exact (Hend k _ Hk).
Qed.

End Complete.

(** A well-formed source file parses to the description built from it. *)
Lemma parse_render kw f : valid_file f -> parse (render_file kw f) = Ok (file_of f).
Proof.
  intros Hv. destruct (parse_m_runs kw (render_file kw f) f eq_refl Hv) as (j & Hj & _).
  unfold parse. rewrite Hj. reflexivity.
Qed.

(** * Python dictionaries: keys and overwriting *)

Section Dicts.
Variable V : Type.

Lemma dict_set_keys k (v : V) d :
  map fst (dict_set k v d) =
  if existsb (String.eqb k) (map fst d) then map fst d else map fst d ++ [k].
Proof.
  induction d as [|[k' v'] d IH]; simpl; [reflexivity|].
  destruct (String.eqb k k') eqn:E; simpl.
  - apply String.eqb_eq in E. subst. reflexivity.
  - rewrite IH. destruct (existsb _ _); reflexivity.
Qed.

Lemma dict_fold_keys (l : list (string * V)) d :
  map fst (fold_left (fun d kv => dict_set (fst kv) (snd kv) d) l d) =
  fold_left (fun acc x => if existsb (String.eqb x) acc then acc else acc ++ [x])
            (map fst l) (map fst d).
Proof.
  revert d. induction l as [|[k v] l IH]; intros d; simpl; [reflexivity|].
  rewrite IH, dict_set_keys. reflexivity.
Qed.

Lemma dict_of_keys (l : list (string * V)) : map fst (dict_of l) = dedup_first (map fst l).
Proof. apply dict_fold_keys. Qed.

Lemma dict_set_In k (v : V) d kv : In kv (dict_set k v d) -> kv = (k, v) \/ In kv d.
Proof.
  induction d as [|[k' v'] d IH]; simpl; [intuition|].
  destruct (String.eqb k k'); simpl; intuition.
Qed.

Lemma dict_fold_In (l : list (string * V)) d kv :
  In kv (fold_left (fun d kv => dict_set (fst kv) (snd kv) d) l d) -> In kv l \/ In kv d.
Proof.
  revert d. induction l as [|[k v] l IH]; intros d; simpl; [auto|].
  intros H. apply IH in H as [H|H]; [auto|]. apply dict_set_In in H as [H|H]; auto.
Qed.

Lemma dict_of_In (l : list (string * V)) kv : In kv (dict_of l) -> In kv l.
Proof. intros H. apply dict_fold_In in H as [H|[]]. exact H. Qed.

Lemma dict_set_NoDup k (v : V) d : NoDup (map fst d) -> NoDup (map fst (dict_set k v d)).
Proof.
  rewrite dict_set_keys. destruct (existsb (String.eqb k) (map fst d)) eqn:E; [auto|].
  intros H. apply NoDup_app; auto; [repeat constructor; simpl; tauto|].
  intros x Hx [Hk|[]]. subst x. apply (proj2 (existsb_eqb_In k _)) in Hx. congruence.
Qed.

Lemma dict_fold_NoDup (l : list (string * V)) d :
  NoDup (map fst d) -> NoDup (map fst (fold_left (fun d kv => dict_set (fst kv) (snd kv) d) l d)).
Proof.
  revert d. induction l as [|[k v] l IH]; intros d H; simpl; [auto|].
  apply IH, dict_set_NoDup, H.
Qed.

Lemma filter_key_nil k (d : dict V) :
  ~ In k (map fst d) -> filter (fun kv => String.eqb (fst kv) k) d = [].
Proof.
  induction d as [|[k' v'] d IH]; simpl; intros H; [reflexivity|].
  destruct (String.eqb k' k) eqn:E.
  - apply String.eqb_eq in E. tauto.
  - apply IH. tauto.
Qed.

Lemma dict_set_filter_same k (v : V) d :
  NoDup (map fst d) -> filter (fun kv => String.eqb (fst kv) k) (dict_set k v d) = [(k, v)].
Proof.
  induction d as [|[k0 v0] d IH]; simpl; intros H.
  - rewrite String.eqb_refl. reflexivity.
  - inversion H as [|? ? Hn Hd]; subst.
    destruct (String.eqb k k0) eqn:E; simpl.
    + rewrite String.eqb_refl. apply String.eqb_eq in E. subst.
      rewrite filter_key_nil; auto.
    + rewrite String.eqb_sym, E. apply IH, Hd.
Qed.

Lemma dict_set_filter_other k k' (v : V) d :
  k' <> k ->
  filter (fun kv => String.eqb (fst kv) k) (dict_set k' v d) =
  filter (fun kv => String.eqb (fst kv) k) d.
Proof.
  intros Hne. pose proof (proj2 (String.eqb_neq _ _) Hne) as Hf.
  induction d as [|[k0 v0] d IH]; simpl.
  - rewrite Hf. reflexivity.
  - destruct (String.eqb k' k0) eqn:E; simpl.
    + apply String.eqb_eq in E. subst. rewrite Hf. reflexivity.
    + rewrite IH. reflexivity.
Qed.

Lemma dict_fold_filter_keep k (l : list (string * V)) d :
  ~ In k (map fst l) ->
  filter (fun kv => String.eqb (fst kv) k) (fold_left (fun d kv => dict_set (fst kv) (snd kv) d) l d) =
  filter (fun kv => String.eqb (fst kv) k) d.
Proof.
  revert d. induction l as [|[k' v] l IH]; intros d H; simpl in *; [reflexivity|].
  rewrite IH by tauto. apply dict_set_filter_other. intros ->. tauto.
Qed.

(** The entry of a key in a dictionary filled in order is the last value
    set for it, and it is the only entry of that key. *)
Lemma dict_of_last (pre post : list (string * V)) k v :
  ~ In k (map fst post) ->
  filter (fun kv => String.eqb (fst kv) k) (dict_of (pre ++ (k, v) :: post)) = [(k, v)].
Proof.
  intros H. unfold dict_of. rewrite fold_left_app. simpl.
  rewrite dict_fold_filter_keep by exact H.
  apply dict_set_filter_same, dict_fold_NoDup. constructor.
Qed.

End Dicts.

(** * The file-level loop from the start of [parse] *)

Lemma parse_noof tokens : parse tokens <> Err OutOfFuel.
Proof.
  unfold parse, parse_m, bind at 1.
  destruct (parse_prelude tokens 0) as [[p i0]|e] eqn:Ep.
  2:{ intros H. inversion H. subst. revert Ep. apply parse_prelude_noof. }
  unfold bind at 1.
  destruct (parse_file_level tokens (fuel tokens) [] [] i0) as [[[[tds pts] post] j]|e] eqn:Ef.
  2:{ intros H. inversion H. subst. revert Ef. apply parse_file_level_noof. unfold fuel. lia. }
  unfold bind. destruct (is_end_of_input_total tokens j) as [b Hb]. rewrite Hb.
  destruct b; simpl; discriminate.
Qed.

Lemma parse_at_loop tokens p i0 n tds pts i :
  parse_prelude tokens 0 = Ok (p, i0) ->
  file_steps tokens (fuel tokens, [], [], i0) (n, tds, pts, i) ->
  parse tokens =
  match (bind (parse_file_level tokens n tds pts)
           (fun '(tds', pts', post) =>
              e <- is_end_of_input tokens;;
              if negb e then fail (ParserError PostludeNotLast)
              else ret (GeneratorDescription.mk p tds' pts' post))) i with
  | Ok (d, _) => Ok d
  | Err e => Err e
  end.
Proof.
  intros Hp Hs. apply file_steps_result in Hs. cbv beta iota in Hs.
  unfold parse, parse_m, bind at 1. rewrite Hp.
  unfold bind at 1 3. rewrite Hs. reflexivity.
Qed.

Lemma parse_file_level_ident tokens n tds pts i t :
  nth_error tokens i = Some t -> type_ t = IDENTIFIER ->
  parse_file_level tokens (S n) tds pts i =
  bind (parse_polymorphic_type tokens)
       (fun '(name, ab) => parse_file_level tokens n tds (dict_set name ab pts)) i.
Proof.
  intros Hn Ht. cbn [parse_file_level]. unfold bind at 1.
  rewrite (is_end_of_input_false tokens i t Hn) by congruence.
  unfold bind at 1, current at 1. rewrite Hn, Ht. reflexivity.
Qed.

Lemma parse_file_level_string tokens n tds pts i t :
  nth_error tokens i = Some t -> type_ t = STRING_LITERAL ->
  parse_file_level tokens (S n) tds pts i = Ok ((tds, pts, literal_text (lexeme t)), S i).
Proof.
  intros Hn Ht. cbn [parse_file_level]. unfold bind at 1.
  rewrite (is_end_of_input_false tokens i t Hn) by congruence.
  unfold bind at 1, current at 1. rewrite Hn, Ht.
  unfold parse_postlude, bind, current, next, ret. rewrite Hn. reflexivity.
Qed.

Lemma parse_polymorphic_type_dup tokens i id base fs j :
  parse_polymorphic_header tokens i = Ok ((id, base, fs), j) ->
  ~ NoDup (map PureVirtualFunction.name fs) ->
  parse_polymorphic_type tokens i =
  match parse_subtype tokens j with
  | Err e => Err e
  | Ok _ => Err (ParserError DuplicatePureVirtualFunctions)
  end.
Proof.
  intros Hh Hd. unfold parse_polymorphic_type, bind at 1. rewrite Hh.
  unfold bind at 1. destruct (parse_subtype tokens j) as [[[[name ms] is] k]|e]; [|reflexivity].
  unfold bind at 1, lift. rewrite init_cases. cbv zeta.
  destruct (Nat.eqb _ _) eqn:E; [|reflexivity].
  apply set_len_eqb_NoDup in E. contradiction.
Qed.

(** * The claims *)

(** C1 (amended).  Every variant of every abstract type that [parse] builds
    implements exactly the operations its abstract type declares; a variant
    whose implementation names differ from them never passes
    [PolymorphicType.__init__], and when neither the declarations nor the
    implementations repeat a name the error is "not all pure virtual
    functions are implemented"; when names repeat, the earlier checks report
    first: "duplicate declaration of pure virtual functions", then
    "duplicate implementation". *)
Theorem C1_variant_implements_exactly :
  (forall tokens d, parse tokens = Ok d ->
     Forall (fun kv =>
       Forall (fun kv' =>
         forall x, In x (map Implementation.name (PolymorphicType.implementations (snd kv'))) <->
                   In x (map PureVirtualFunction.name (AbstractType.pure_virtual_functions (snd kv))))
         (AbstractType.sub_types (snd kv)))
       (GeneratorDescription.abstract_types d)) /\
  (forall fs ms is,
     ~ (forall x, In x (map Implementation.name is) <-> In x (map PureVirtualFunction.name fs)) ->
     forall pt, PolymorphicType.init fs ms is <> Ok pt) /\
  (forall fs ms is, ~ NoDup (map PureVirtualFunction.name fs) ->
     PolymorphicType.init fs ms is = Err (ParserError DuplicatePureVirtualFunctions)) /\
  (forall fs ms is, NoDup (map PureVirtualFunction.name fs) -> ~ NoDup (map Implementation.name is) ->
     PolymorphicType.init fs ms is = Err (ParserError DuplicateImplementation)) /\
  (forall fs ms is,
     NoDup (map PureVirtualFunction.name fs) -> NoDup (map Implementation.name is) ->
     ~ (forall x, In x (map Implementation.name is) <-> In x (map PureVirtualFunction.name fs)) ->
     PolymorphicType.init fs ms is = Err (ParserError NotAllImplemented)).
Proof.
  split; [|split; [|split; [|split]]].
  - exact parse_exact.
  - intros fs ms is Hn pt Hi. apply init_inv in Hi as (_ & _ & _ & Hx). contradiction.
  - intros fs ms is H1. rewrite init_cases. cbv zeta.
    destruct (Nat.eqb _ _) eqn:E; [|reflexivity].
    apply set_len_eqb_NoDup in E. contradiction.
  - intros fs ms is H1 H2. rewrite init_cases. cbv zeta.
    apply set_len_eqb_NoDup in H1. rewrite H1. simpl.
    destruct (Nat.eqb _ (List.length (map Implementation.name is))) eqn:E; [|reflexivity].
    apply set_len_eqb_NoDup in E. contradiction.
  - intros fs ms is H1 H2 Hn. rewrite init_cases. cbv zeta.
    apply set_len_eqb_NoDup in H1, H2. rewrite H1, H2. simpl.
    destruct (set_neqb _ _) eqn:E; [reflexivity|].
    pose proof (proj1 (set_neqb_false _ _) E) as E'. exfalso. apply Hn. intros x. rewrite E'. tauto.
Qed.

(** C1: a variant of [Shape] that implements the undeclared [render] twice:
    its implementation names differ from the declared [area], and [parse]
    reports the duplicate implementation, not the mismatch. *)
Lemma C1_counterexample :
  let toks := [mkToken IDENTIFIER "Shape"; mkToken LEFT_PARENTHESIS "(";
               mkToken FUNCTION "function"; mkToken IDENTIFIER "area"; mkToken STRING_LITERAL (quoted "double");
               mkToken RIGHT_PARENTHESIS ")"; mkToken EQUALS "=";
               mkToken IDENTIFIER "Circle"; mkToken LEFT_PARENTHESIS "(";
               mkToken IMPLEMENT "implement"; mkToken IDENTIFIER "render"; mkToken STRING_LITERAL (quoted "x");
               mkToken IMPLEMENT "implement"; mkToken IDENTIFIER "render"; mkToken STRING_LITERAL (quoted "x");
               mkToken RIGHT_PARENTHESIS ")"; mkToken END_OF_INPUT EmptyString] in
  parse toks = Err (ParserError DuplicateImplementation) /\
  ~ (forall x, In x ["render"; "render"] <-> In x ["area"]).
Proof.
  split; [reflexivity|].
  intros H. destruct (proj2 (H "area") (or_introl eq_refl)) as [E|[E|[]]]; discriminate E.
Qed.

(** C1: a variant implementing the undeclared [render] once, where [area]
    is declared: the mismatch error. *)
Lemma C1_witness :
  PolymorphicType.init [PureVirtualFunction.mk "area" None] []
    [Implementation.mk "render" "x"] = Err (ParserError NotAllImplemented).
Proof.
  apply (proj2 (proj2 (proj2 (proj2 C1_variant_implements_exactly)))).
  - repeat constructor. simpl. tauto.
  - repeat constructor. simpl. tauto.
  - intros H. destruct (proj1 (H "render") (or_introl eq_refl)) as [E|[]]. discriminate E.
Defined.

(** C2.  The checks of [PolymorphicType.__init__] run in the order: duplicate
    operation declarations, duplicate implementations, then equality of the
    name sets; the first failing check decides the error. *)
Theorem C2_check_order fs ms is :
  let fnames := map PureVirtualFunction.name fs in
  let inames := map Implementation.name is in
  (~ NoDup fnames -> PolymorphicType.init fs ms is = Err (ParserError DuplicatePureVirtualFunctions)) /\
  (NoDup fnames -> ~ NoDup inames ->
     PolymorphicType.init fs ms is = Err (ParserError DuplicateImplementation)) /\
  (NoDup fnames -> NoDup inames -> ~ (forall x, In x inames <-> In x fnames) ->
     PolymorphicType.init fs ms is = Err (ParserError NotAllImplemented)) /\
  (NoDup fnames -> NoDup inames -> (forall x, In x inames <-> In x fnames) ->
     PolymorphicType.init fs ms is = Ok (PolymorphicType.mk fs ms is)).
Proof.
  cbv zeta. rewrite init_cases. cbv zeta.
  repeat split; intros H1; try intros H2; try intros H3.
  - destruct (Nat.eqb _ _) eqn:E; [|reflexivity].
    apply set_len_eqb_NoDup in E. contradiction.
  - apply set_len_eqb_NoDup in H1. rewrite H1. simpl.
    destruct (Nat.eqb _ (List.length (map Implementation.name is))) eqn:E; [|reflexivity].
    apply set_len_eqb_NoDup in E. contradiction.
  - apply set_len_eqb_NoDup in H1, H2. rewrite H1, H2. simpl.
    destruct (set_neqb _ _) eqn:E; [reflexivity|].
    pose proof (proj1 (set_neqb_false _ _) E) as E'. exfalso. apply H3. intros x. rewrite E'. tauto.
  - apply set_len_eqb_NoDup in H1, H2. rewrite H1, H2. simpl.
    replace (set_neqb _ _) with false; [reflexivity|].
    symmetry. apply set_neqb_false. intros x. rewrite H3. tauto.
Qed.

(** C3 (amended).  When the file-level loop of [parse] reaches an abstract
    type whose header declares two operations with the same name, the first
    variant is parsed before the check runs: [parse] fails with the error of
    that variant if it is malformed, and with "duplicate declaration of pure
    virtual functions" otherwise. *)
Theorem C3_duplicate_declaration_after_first_variant tokens p i0 n tds pts i t id base fs j :
  parse_prelude tokens 0 = Ok (p, i0) ->
  file_steps tokens (fuel tokens, [], [], i0) (S n, tds, pts, i) ->
  nth_error tokens i = Some t -> type_ t = IDENTIFIER ->
  parse_polymorphic_header tokens i = Ok ((id, base, fs), j) ->
  ~ NoDup (map PureVirtualFunction.name fs) ->
  parse tokens =
  match parse_subtype tokens j with
  | Err e => Err e
  | Ok _ => Err (ParserError DuplicatePureVirtualFunctions)
  end.
Proof.
  intros Hp Hs Hn Ht Hh Hd. rewrite (parse_at_loop tokens p i0 (S n) tds pts i Hp Hs).
  unfold bind at 1. rewrite (parse_file_level_ident tokens n tds pts i t Hn Ht).
  unfold bind at 1. rewrite (parse_polymorphic_type_dup tokens i id base fs j Hh Hd).
  destruct (parse_subtype tokens j); reflexivity.
Qed.

(** C3: two declarations of [area] and a first variant [Circle ( =]
    that misses its closing parenthesis: [parse] reports the malformed
    variant, not the duplicate declaration. *)
Lemma C3_counterexample :
  let toks := [mkToken IDENTIFIER "Shape"; mkToken LEFT_PARENTHESIS "(";
               mkToken FUNCTION "function"; mkToken IDENTIFIER "area"; mkToken STRING_LITERAL (quoted "double");
               mkToken FUNCTION "function"; mkToken IDENTIFIER "area"; mkToken STRING_LITERAL (quoted "double");
               mkToken RIGHT_PARENTHESIS ")"; mkToken EQUALS "=";
               mkToken IDENTIFIER "Circle"; mkToken LEFT_PARENTHESIS "("; mkToken EQUALS "=";
               mkToken END_OF_INPUT EmptyString] in
  parse toks = Err (ParserError (UnexpectedTokenType RIGHT_PARENTHESIS EQUALS "=")).
Proof. reflexivity. Qed.

(** C3: the same header with a well-formed first variant [Circle ( )]:
    the duplicate declaration is reported. *)
Lemma C3_witness :
  let toks := [mkToken IDENTIFIER "Shape"; mkToken LEFT_PARENTHESIS "(";
               mkToken FUNCTION "function"; mkToken IDENTIFIER "area"; mkToken STRING_LITERAL (quoted "double");
               mkToken FUNCTION "function"; mkToken IDENTIFIER "area"; mkToken STRING_LITERAL (quoted "double");
               mkToken RIGHT_PARENTHESIS ")"; mkToken EQUALS "=";
               mkToken IDENTIFIER "Circle"; mkToken LEFT_PARENTHESIS "("; mkToken RIGHT_PARENTHESIS ")";
               mkToken END_OF_INPUT EmptyString] in
  parse toks = Err (ParserError DuplicatePureVirtualFunctions).
Proof.
  intros toks.
  refine (eq_trans (C3_duplicate_declaration_after_first_variant toks EmptyString 0 14 [] [] 0
                      (mkToken IDENTIFIER "Shape") (mkToken IDENTIFIER "Shape") []
                      [PureVirtualFunction.mk "area" (Some "double");
                       PureVirtualFunction.mk "area" (Some "double")] 10
                      eq_refl (file_steps_refl _ _) eq_refl eq_refl eq_refl _) _).
  - intros H. inversion H as [|? ? Hn _]. apply Hn. left. reflexivity.
  - reflexivity.
Defined.

(** C4 (amended).  [Parser.current] returns the token at the cursor, the
    end-of-input marker included; only a cursor at or past the end of the
    token list fails, with Python's [IndexError] and not a [ParserError].
    "unexpected end of input" is raised by [consume] when [is_end_of_input]
    holds: the cursor is past the list or on an end-of-input marker. *)
Theorem C4_current_returns_marker tokens i :
  (forall t, nth_error tokens i = Some t -> current tokens i = Ok (t, i)) /\
  (List.length tokens <= i -> current tokens i = Err IndexError) /\
  (is_end_of_input tokens i = Ok (true, i) <->
   List.length tokens <= i \/ exists t, nth_error tokens i = Some t /\ type_ t = END_OF_INPUT) /\
  (forall ty, is_end_of_input tokens i = Ok (true, i) ->
   consume tokens ty i = Err (ParserError UnexpectedEndOfInput)).
Proof.
  split; [|split; [|split]].
  - intros t Hn. unfold current. rewrite Hn. reflexivity.
  - intros H. unfold current. apply nth_error_None in H. rewrite H. reflexivity.
  - unfold is_end_of_input. destruct (Nat.leb_spec (List.length tokens) i) as [Hl|Hl].
    + split; auto.
    + unfold bind, current, ret.
      destruct (nth_error tokens i) as [t|] eqn:Hn.
      * split.
        -- intros H. inversion H as [E]. right. exists t. split; auto.
           apply TokenType_eqb_eq. exact E.
        -- intros [H|(t' & Ht' & E)]; [lia|]. inversion Ht'; subst.
           rewrite E. reflexivity.
      * apply nth_error_None in Hn. lia.
  - intros ty H. unfold consume, bind at 1. rewrite H. reflexivity.
Qed.

(** C4: on a token list holding only the end-of-input marker, the cursor
    at that marker is at the end of input, and [current] returns it. *)
Lemma C4_counterexample :
  let toks := [mkToken END_OF_INPUT EmptyString] in
  is_end_of_input toks 0 = Ok (true, 0) /\
  current toks 0 = Ok (mkToken END_OF_INPUT EmptyString, 0).
Proof. split; reflexivity. Qed.

(** C5.  Every string literal the parser consumes (a member type, an
    operation's return type, an implementation body, a type definition, the
    postlude and the prelude) is stored as [lexeme[1:-1].strip()]; an
    operation whose return type is empty after that gets no return type,
    never the empty string.  The literal of [  int x;  ] is stored as
    [int x;]. *)
Theorem C5_literal_text tokens :
  (forall i m j, parse_data_member tokens i = Ok (m, j) ->
     exists t, nth_error tokens (pred j) = Some t /\ type_ t = STRING_LITERAL /\
               Member.type_ m = literal_text (lexeme t)) /\
  (forall i f j, parse_function_declaration tokens i = Ok (f, j) ->
     exists t, nth_error tokens (pred j) = Some t /\ type_ t = STRING_LITERAL /\
               PureVirtualFunction.return_type f =
                 (if String.eqb (literal_text (lexeme t)) EmptyString then None
                  else Some (literal_text (lexeme t)))) /\
  (forall i im j, parse_implementation tokens i = Ok (im, j) ->
     exists t, nth_error tokens (pred j) = Some t /\ type_ t = STRING_LITERAL /\
               Implementation.body im = literal_text (lexeme t)) /\
  (forall i td j, parse_type_definition tokens i = Ok (td, j) ->
     exists t, nth_error tokens (pred j) = Some t /\ type_ t = STRING_LITERAL /\
               snd td = literal_text (lexeme t)) /\
  (forall i s j, parse_postlude tokens i = Ok (s, j) ->
     exists t, nth_error tokens (pred j) = Some t /\ s = literal_text (lexeme t)) /\
  (forall s j, parse_prelude tokens 0 = Ok (s, j) ->
     (exists t, nth_error tokens 0 = Some t /\ type_ t = STRING_LITERAL /\ j = 1 /\
                s = literal_text (lexeme t)) \/
     (j = 0 /\ s = EmptyString /\
      exists t, nth_error tokens 0 = Some t /\ type_ t <> STRING_LITERAL)) /\
  literal_text (quoted "  int x;  ") = "int x;".
Proof.
  repeat split.
  - intros i m j H. unfold parse_data_member in H. forward_pm; eexists; eauto.
  - intros i f j H. unfold parse_function_declaration in H. forward_pm.
    eexists; split; [eassumption|]. split; [assumption|]. simpl.
    destruct (literal_text (lexeme _)); reflexivity.
  - intros i im j H. unfold parse_implementation in H. forward_pm; eexists; eauto.
  - intros i td j H. unfold parse_type_definition in H. forward_pm; eexists; eauto.
  - intros i s j H. unfold parse_postlude in H. forward_pm; eexists; eauto.
  - intros s j H. unfold parse_prelude in H. forward_pm.
    + left. eexists; repeat split; eauto. apply TokenType_eqb_eq. assumption.
    + right. repeat split. eexists; split; [eassumption|].
      intros Es. match goal with Ex : TokenType_eqb _ _ = false |- _ => rewrite Es in Ex; discriminate Ex end.
Qed.

(** C6.  When the file-level loop of [parse] meets a string literal, it
    stores it as the postlude and stops; [parse] then succeeds when the
    postlude is the last token or is followed by the end-of-input marker, and
    fails with "the postlude must be the last part of the file" when any
    other token follows it. *)
Theorem C6_postlude_last tokens p i0 n tds pts i t :
  parse_prelude tokens 0 = Ok (p, i0) ->
  file_steps tokens (fuel tokens, [], [], i0) (S n, tds, pts, i) ->
  nth_error tokens i = Some t -> type_ t = STRING_LITERAL ->
  parse tokens =
  match nth_error tokens (S i) with
  | Some t' =>
      if TokenType_eqb (type_ t') END_OF_INPUT
      then Ok (GeneratorDescription.mk p tds pts (literal_text (lexeme t)))
      else Err (ParserError PostludeNotLast)
  | None => Ok (GeneratorDescription.mk p tds pts (literal_text (lexeme t)))
  end.
Proof.
  intros Hp Hs Hn Ht. rewrite (parse_at_loop tokens p i0 (S n) tds pts i Hp Hs).
  unfold bind at 1. rewrite (parse_file_level_string tokens n tds pts i t Hn Ht). cbv beta iota.
  destruct (is_end_of_input_total tokens (S i)) as [b Hb]. unfold bind at 1. rewrite Hb.
  destruct (nth_error tokens (S i)) as [t'|] eqn:E.
  - destruct (TokenType_eqb (type_ t') END_OF_INPUT) eqn:Et.
    + assert (b = true) as ->; [|reflexivity].
      unfold is_end_of_input in Hb. destruct (Nat.leb _ _); [congruence|].
      unfold bind, current, ret in Hb. rewrite E, Et in Hb. congruence.
    + assert (b = false) as ->; [|reflexivity].
      rewrite (is_end_of_input_false tokens (S i) t' E) in Hb; [congruence|].
      intros Ee. rewrite Ee in Et. discriminate.
  - assert (b = true) as ->; [|reflexivity].
    apply nth_error_None, Nat.leb_le in E. unfold is_end_of_input in Hb. rewrite E in Hb. congruence.
Qed.

(** C6: a prelude, a postlude and one more identifier. *)
Lemma C6_witness :
  let toks := [mkToken STRING_LITERAL (quoted "pre"); mkToken STRING_LITERAL (quoted "post");
               mkToken IDENTIFIER "x"; mkToken END_OF_INPUT EmptyString] in
  parse toks = Err (ParserError PostludeNotLast).
Proof.
  intros toks.
  exact (C6_postlude_last toks "pre" 1 4 [] [] 1 (mkToken STRING_LITERAL (quoted "post"))
           eq_refl (file_steps_refl _ _) eq_refl eq_refl).
Defined.

(** C7.  An abstract type with two variants of the same name is accepted:
    [parse] succeeds, and the variants dictionary of that abstract type has a
    single entry for the name, holding the later variant.  (The abstract type
    is taken as the last one of its name, so that it is the one [parse]
    keeps.) *)
Theorem C7_duplicate_variant_overwrites kw f a its1 its2 pre v1 mid v2 post :
  valid_file f ->
  sf_items f = its1 ++ SAbstract a :: its2 ->
  ~ In (sa_name a) (map sa_name (src_abstracts its2)) ->
  sa_variants a = pre ++ v1 :: mid ++ v2 :: post ->
  sv_name v1 = sv_name v2 ->
  ~ In (sv_name v2) (map sv_name post) ->
  exists d ab,
    parse (render_file kw f) = Ok d /\
    filter (fun kv => String.eqb (fst kv) (sa_name a)) (GeneratorDescription.abstract_types d)
      = [(sa_name a, ab)] /\
    filter (fun kv => String.eqb (fst kv) (sv_name v2)) (AbstractType.sub_types ab)
      = [(sv_name v2, variant_of (map function_of (sa_functions a)) v2)].
Proof.
  intros Hv Hitems Hna Hvs Hname Hpost.
  exists (file_of f), (abstract_of a). split; [apply parse_render; exact Hv|]. split.
  - unfold file_of. cbn [GeneratorDescription.abstract_types].
    assert (Hs : src_abstracts (its1 ++ SAbstract a :: its2) = src_abstracts its1 ++ a :: src_abstracts its2)
      by (unfold src_abstracts; rewrite flat_map_app; reflexivity).
    rewrite Hitems, Hs, map_app. cbn [map].
    apply dict_of_last. rewrite map_map. exact Hna.
  - unfold abstract_of. cbn [AbstractType.sub_types]. rewrite Hvs, map_app. cbn [map].
    rewrite map_app. cbn [map]. rewrite app_comm_cons, app_assoc.
    apply dict_of_last. rewrite map_map. exact Hpost.
Qed.

(** C7: [Shape] with a variant [A] without members followed by a variant
    [A] with the member [x]. *)
Lemma C7_witness :
  exists d ab,
    parse (render_file (fun _ => EmptyString)
             {| sf_prelude := None;
                sf_items := [SAbstract {| sa_name := "Shape"; sa_members := []; sa_functions := [];
                                          sa_first := {| sv_name := "A"; sv_entries := [] |};
                                          sa_rest := [{| sv_name := "A";
                                                         sv_entries := [SMember {| sm_name := "x";
                                                           sm_by_move := false; sm_type := quoted "int" |}] |}] |}];
                sf_postlude := None |}) = Ok d /\
    filter (fun kv => String.eqb (fst kv) "Shape") (GeneratorDescription.abstract_types d)
      = [("Shape", ab)] /\
    filter (fun kv => String.eqb (fst kv) "A") (AbstractType.sub_types ab)
      = [("A", PolymorphicType.mk [] [Member.mk "x" false "int"] [])].
Proof.
  pose (v1 := {| sv_name := "A"; sv_entries := [] |}).
  pose (v2 := {| sv_name := "A"; sv_entries := [SMember {| sm_name := "x";
                   sm_by_move := false; sm_type := quoted "int" |}] |}).
  pose (a := {| sa_name := "Shape"; sa_members := []; sa_functions := [];
                sa_first := v1; sa_rest := [v2] |}).
  pose (f := {| sf_prelude := None; sf_items := [SAbstract a]; sf_postlude := None |}).
  apply (C7_duplicate_variant_overwrites (fun _ => EmptyString) f a [] [] [] v1 [] v2 []).
  - split.
    + repeat constructor; simpl; tauto.
    + intros _ H. discriminate H.
  - reflexivity.
  - simpl. tauto.
  - reflexivity.
  - reflexivity.
  - simpl. tauto.
Defined.

(** C8.  [parse] keeps the order of the source: the type definitions in the
    order of their [type] constructs, the abstract types keyed in the order
    their names are first declared, and for each abstract type its shared
    members and operations in source order and its variants keyed in the
    order their names first occur, each variant with its members and
    implementations in source order. *)
Theorem C8_order_preserved kw f :
  valid_file f ->
  exists d,
    parse (render_file kw f) = Ok d /\
    GeneratorDescription.type_definitions d = src_type_definitions (sf_items f) /\
    map fst (GeneratorDescription.abstract_types d) = dedup_first (map sa_name (src_abstracts (sf_items f))) /\
    Forall (fun kv => exists a,
      In a (src_abstracts (sf_items f)) /\ sa_name a = fst kv /\
      AbstractType.members (snd kv) = map member_of (sa_members a) /\
      AbstractType.pure_virtual_functions (snd kv) = map function_of (sa_functions a) /\
      map fst (AbstractType.sub_types (snd kv)) = dedup_first (map sv_name (sa_variants a)) /\
      Forall (fun kv' => exists v,
        In v (sa_variants a) /\ sv_name v = fst kv' /\
        PolymorphicType.members (snd kv') = entry_members (sv_entries v) /\
        PolymorphicType.implementations (snd kv') = entry_implementations (sv_entries v))
        (AbstractType.sub_types (snd kv)))
      (GeneratorDescription.abstract_types d).
Proof.
  intros Hv. exists (file_of f). split; [apply parse_render; exact Hv|].
  split; [reflexivity|]. split.
  - unfold file_of. cbn [GeneratorDescription.abstract_types].
    rewrite dict_of_keys, map_map. reflexivity.
  - apply Forall_forall. intros kv Hin. unfold file_of in Hin.
    cbn [GeneratorDescription.abstract_types] in Hin.
    apply dict_of_In, in_map_iff in Hin as (a & <- & Ha).
    exists a. cbn [fst snd]. split; [exact Ha|]. split; [reflexivity|].
    split; [reflexivity|]. split; [reflexivity|]. split.
    + unfold abstract_of. cbn [AbstractType.sub_types].
      rewrite dict_of_keys, map_map. reflexivity.
    + apply Forall_forall. intros kv' Hin'. unfold abstract_of in Hin'.
      cbn [AbstractType.sub_types] in Hin'.
      apply dict_of_In, in_map_iff in Hin' as (v & <- & Hv').
      exists v. cbn [fst snd]. split; [exact Hv'|]. repeat split.
Qed.

(** C8: a prelude, a type definition and an abstract type [Shape] with a
    shared member, an operation and two variants. *)
Lemma C8_witness :
  let v1 := {| sv_name := "Circle"; sv_entries :=
                 [SMember {| sm_name := "r"; sm_by_move := false; sm_type := quoted "double" |};
                  SImplement "area" (quoted "return r;")] |} in
  let v2 := {| sv_name := "Square"; sv_entries := [SImplement "area" (quoted "return 1;")] |} in
  let a := {| sa_name := "Shape";
              sa_members := [{| sm_name := "id"; sm_by_move := true; sm_type := quoted "int" |}];
              sa_functions := [("area", quoted "double")]; sa_first := v1; sa_rest := [v2] |} in
  let f := {| sf_prelude := Some (quoted "pre"); sf_items := [STypeDef "T" (quoted "int"); SAbstract a];
              sf_postlude := None |} in
  exists d,
    parse (render_file (fun _ => EmptyString) f) = Ok d /\
    GeneratorDescription.type_definitions d = src_type_definitions (sf_items f) /\
    map fst (GeneratorDescription.abstract_types d) = dedup_first (map sa_name (src_abstracts (sf_items f))) /\
    Forall (fun kv => exists a,
      In a (src_abstracts (sf_items f)) /\ sa_name a = fst kv /\
      AbstractType.members (snd kv) = map member_of (sa_members a) /\
      AbstractType.pure_virtual_functions (snd kv) = map function_of (sa_functions a) /\
      map fst (AbstractType.sub_types (snd kv)) = dedup_first (map sv_name (sa_variants a)) /\
      Forall (fun kv' => exists v,
        In v (sa_variants a) /\ sv_name v = fst kv' /\
        PolymorphicType.members (snd kv') = entry_members (sv_entries v) /\
        PolymorphicType.implementations (snd kv') = entry_implementations (sv_entries v))
        (AbstractType.sub_types (snd kv)))
      (GeneratorDescription.abstract_types d).
Proof.
  intros v1 v2 a f. apply (C8_order_preserved (fun _ => EmptyString) f).
  split; [|intros H; discriminate H].
  simpl. constructor; [|constructor].
  split; [repeat constructor; simpl; tauto|].
  constructor; [|constructor; [|constructor]];
    (split; [repeat constructor; simpl; tauto | intros x; simpl; tauto]).
Defined.

(** C9.  [parse] terminates on every token list: every loop of the parser
    is given [len(tokens) + 1] iterations and none of them ever uses them
    up, since each iteration of each loop consumes at least one token and
    stays inside the token list: a type definition or an abstract type in the
    file-level loop, a member in the member loops, an operation declaration,
    an implementation in the variant body, and [|] with a variant in the
    variant loop. *)
Theorem C9_parse_terminates tokens :
  parse tokens <> Err OutOfFuel /\
  strict tokens (parse_type_definition tokens) /\
  strict tokens (parse_polymorphic_type tokens) /\
  strict tokens (parse_data_member tokens) /\
  strict tokens (parse_function_declaration tokens) /\
  strict tokens (parse_implementation tokens) /\
  strict tokens (next;; parse_subtype tokens).
Proof.
  split; [apply parse_noof|]. split; [apply parse_type_definition_strict|].
  split; [apply parse_polymorphic_type_strict|]. split; [apply parse_data_member_strict|].
  split; [apply parse_function_declaration_strict|].
  split; [apply parse_implementation_strict|].
  intros i a j H. forward_pm. apply parse_subtype_strict in H1. lia.
Qed.

(** C10.  On the empty token list [parse] fails with Python's [IndexError]
    from [current()] in the prelude test, not with a [ParserError]; [current]
    fails this way whenever the cursor is past the token list. *)
Theorem C10_empty_input_index_error :
  parse [] = Err IndexError /\
  (forall m, parse [] <> Err (ParserError m)) /\
  (forall tokens i, List.length tokens <= i -> current tokens i = Err IndexError).
Proof.
  split; [reflexivity|]. split.
  - intros m H. discriminate H.
  - intros tokens i H. apply nth_error_None in H. unfold current. rewrite H. reflexivity.
Qed.

(** * Further properties of the parser *)

(** ** Helpers *)

Lemma bind_runs_eq {A B} tokens (m : PM A) (k : A -> PM B) i a r x :
  runs tokens m i a r -> (forall j, skipn j tokens = r -> k a j = x) -> bind m k i = x.
Proof. intros (j & Hm & Hj) Hk. unfold bind. rewrite Hm. apply Hk. exact Hj. Qed.

Lemma bind_fails {A B} (m : PM A) (k : A -> PM B) i e : m i = Err e -> bind m k i = Err e.
Proof. intros H. unfold bind. rewrite H. reflexivity. Qed.

Lemma current_past_end tokens i : skipn i tokens = [] -> current tokens i = Err IndexError.
Proof.
  intros H. apply (f_equal (@List.length Token)) in H. rewrite length_skipn in H. simpl in H.
  unfold current. replace (nth_error tokens i) with (@None Token); [reflexivity|].
  symmetry. apply nth_error_None. lia.
Qed.

Lemma consume_eof tokens ty i t :
  nth_error tokens i = Some t -> type_ t = END_OF_INPUT ->
  consume tokens ty i = Err (ParserError UnexpectedEndOfInput).
Proof.
  intros Hn Ht. unfold consume, bind at 1, is_end_of_input.
  assert (i < List.length tokens) by (apply nth_error_Some; congruence).
  destruct (Nat.leb_spec (List.length tokens) i); [lia|].
  unfold bind, current, ret. rewrite Hn, Ht. reflexivity.
Qed.

Lemma parse_file_level_other tokens n tds pts i t :
  nth_error tokens i = Some t -> type_ t <> TYPE -> type_ t <> IDENTIFIER ->
  type_ t <> STRING_LITERAL -> type_ t <> END_OF_INPUT ->
  parse_file_level tokens (S n) tds pts i = Err (ParserError (UnexpectedToken (type_ t))).
Proof.
  intros Hn H1 H2 H3 H4. cbn [parse_file_level]. unfold bind at 1.
  rewrite (is_end_of_input_false tokens i t Hn H4).
  unfold bind at 1, current at 1. rewrite Hn.
  destruct t as [k l]; simpl in *; destruct k; try contradiction; reflexivity.
Qed.

Lemma parse_variants_end kw tokens fns vs : forall n st i,
  skipn i tokens = flat_map (render_piped kw) vs -> NoDup (map fst fns) ->
  Forall (valid_variant (map fst fns)) vs -> List.length vs < n ->
  parse_variants tokens n (map function_of fns) st i = Err IndexError.
Proof.
  induction vs as [|v vs IH]; intros n st i H Hf Hv Hn;
    (destruct n as [|n]; [simpl in Hn; lia|]); cbn [parse_variants].
  - apply bind_fails, current_past_end. exact H.
  - cbn [flat_map] in H. unfold render_piped in H. rewrite <- app_comm_cons in H.
    inversion Hv as [|? ? Hv1 Hvs]; subst.
    eapply bind_runs_eq; [eapply runs_current; exact H|]. intros j Hj. cbn [tok type_ TokenType_eqb].
    eapply bind_runs_eq; [eapply runs_next; exact Hj|]. intros j1 Hj1.
    eapply bind_runs_eq; [apply (parse_subtype_runs kw); exact Hj1|]. intros j2 Hj2. cbv beta iota.
    eapply bind_runs_eq; [apply runs_lift; [apply valid_init; assumption | exact Hj2]|].
    intros j3 Hj3. simpl in Hn. apply IH; auto. lia.
Qed.

Lemma parse_polymorphic_type_end kw tokens i a :
  skipn i tokens = render_abstract kw a -> valid_abstract a ->
  parse_polymorphic_type tokens i = Err IndexError.
Proof.
  intros H0 [Hf Hv].
  assert (H : skipn i tokens = ident (sa_name a) :: tok kw LEFT_PARENTHESIS
    :: flat_map (render_member kw) (sa_members a) ++ flat_map (render_function kw) (sa_functions a)
    ++ [tok kw RIGHT_PARENTHESIS; tok kw EQUALS]
    ++ (render_variant kw (sa_first a) ++ flat_map (render_piped kw) (sa_rest a)))
    by (rewrite H0; unfold render_abstract;
        repeat (rewrite <- app_assoc || rewrite <- app_comm_cons); reflexivity).
  clear H0. unfold sa_variants in Hv. inversion Hv as [|? ? Hv1 Hvs]; subst.
  unfold parse_polymorphic_type.
  eapply bind_runs_eq; [apply (parse_polymorphic_header_runs kw); exact H|]. intros j Hj. cbv beta iota.
  eapply bind_runs_eq; [apply (parse_subtype_runs kw); exact Hj|]. intros j' Hj'. cbv beta iota.
  eapply bind_runs_eq; [apply runs_lift; [apply valid_init; assumption | exact Hj']|].
  intros j'' Hj''. apply bind_fails.
  apply parse_variants_end with (kw := kw) (vs := sa_rest a); auto.
  eapply fuel_bound with (rest := []); [apply render_piped_nonempty | rewrite app_nil_r; exact Hj''].
Qed.

Lemma consume_mismatch tokens ty i t :
  nth_error tokens i = Some t -> type_ t <> END_OF_INPUT -> type_ t <> ty ->
  consume tokens ty i = Err (ParserError (UnexpectedTokenType ty (type_ t) (lexeme t))).
Proof.
  intros Hn He Hty. unfold consume, bind at 1. rewrite (is_end_of_input_false tokens i t Hn He).
  unfold bind at 1, current at 1. rewrite Hn. rewrite (kind_false _ _ Hty). reflexivity.
Qed.

Lemma dict_set_nonempty {V} k (v : V) d : dict_set k v d <> [].
Proof. destruct d as [|[k' v'] d]; simpl; [discriminate|]. destruct (String.eqb k k'); discriminate. Qed.

(** ** [Parser.consume] *)

(** X1.  [consume(ty)] succeeds exactly on a token of kind [ty] that is not
    the end-of-input marker: it returns that token and moves the cursor by
    one.  On a token of another kind that is not the marker it reports the
    expected kind, the kind found and its lexeme; on the marker, or past the
    end of the list, it fails with "unexpected end of input" whatever kind
    is expected, so [consume(END_OF_INPUT)] never succeeds. *)
Theorem consume_behaviour tokens ty i :
  (forall t j, consume tokens ty i = Ok (t, j) ->
     nth_error tokens i = Some t /\ type_ t = ty /\ ty <> END_OF_INPUT /\ j = S i) /\
  (forall t, nth_error tokens i = Some t -> type_ t = ty -> ty <> END_OF_INPUT ->
     consume tokens ty i = Ok (t, S i)) /\
  (forall t, nth_error tokens i = Some t -> type_ t <> ty -> type_ t <> END_OF_INPUT ->
     consume tokens ty i = Err (ParserError (UnexpectedTokenType ty (type_ t) (lexeme t)))) /\
  (forall t, nth_error tokens i = Some t -> type_ t = END_OF_INPUT ->
     consume tokens ty i = Err (ParserError UnexpectedEndOfInput)) /\
  (List.length tokens <= i -> consume tokens ty i = Err (ParserError UnexpectedEndOfInput)) /\
  (forall r, consume tokens END_OF_INPUT i <> Ok r).
Proof.
  assert (Hend : forall t, nth_error tokens i = Some t -> type_ t = END_OF_INPUT ->
            consume tokens END_OF_INPUT i = Err (ParserError UnexpectedEndOfInput)).
  { intros t Hn Ht. unfold consume, bind at 1, is_end_of_input.
    assert (i < List.length tokens) by (apply nth_error_Some; congruence).
    destruct (Nat.leb_spec (List.length tokens) i); [lia|].
    unfold bind, current, ret. rewrite Hn, Ht. reflexivity. }
  split; [|split; [|split; [|split; [|split]]]].
  - intros t j H. pose proof H as H'. apply consume_inv in H as (-> & Hn & Ht & _).
    repeat split; auto. intros E. rewrite E in Ht, H'. rewrite (Hend t Hn Ht) in H'. discriminate.
  - intros t Hn Ht Hty. unfold consume, bind at 1.
    rewrite (is_end_of_input_false tokens i t Hn) by congruence.
    unfold bind, current, next, ret. rewrite Hn, Ht.
    replace (TokenType_eqb ty ty) with true by (symmetry; apply TokenType_eqb_eq; reflexivity).
    simpl. rewrite Hn. reflexivity.
  - intros t Hn Hty He. apply consume_mismatch; assumption.
  - intros t Hn Ht. exact (consume_eof tokens ty i t Hn Ht).
  - intros Hl. unfold consume, bind at 1, is_end_of_input.
    apply Nat.leb_le in Hl. rewrite Hl. reflexivity.
  - intros [t j] H. pose proof H as H'. apply consume_inv in H as (-> & Hn & Ht & _).
    rewrite (Hend t Hn Ht) in H'. discriminate.
Qed.

(** ** [Parser.peek] and [Parser.is_end_of_input] *)

(** X2.  [peek()] never moves the cursor; at the end of input it gives
    [None], otherwise the token after the current one, failing with
    [IndexError] when the current token is the last of the list.  On a token
    list ending with the end-of-input marker, [peek] on any other token
    always gives the next token. *)
Theorem peek_behaviour tokens i :
  (forall o j, peek tokens i = Ok (o, j) -> j = i) /\
  (is_end_of_input tokens i = Ok (true, i) -> peek tokens i = Ok (None, i)) /\
  (forall t, nth_error tokens i = Some t -> type_ t <> END_OF_INPUT ->
     peek tokens i = match nth_error tokens (S i) with
                     | Some t' => Ok (Some t', i)
                     | None => Err IndexError
                     end) /\
  (forall t l e, nth_error tokens i = Some t -> type_ t <> END_OF_INPUT ->
     tokens = l ++ [e] -> type_ e = END_OF_INPUT ->
     exists t', nth_error tokens (S i) = Some t' /\ peek tokens i = Ok (Some t', i)).
Proof.
  assert (Hnot : forall t, nth_error tokens i = Some t -> type_ t <> END_OF_INPUT ->
     peek tokens i = match nth_error tokens (S i) with
                     | Some t' => Ok (Some t', i)
                     | None => Err IndexError
                     end).
  { intros t Hn Ht. unfold peek, bind at 1. rewrite (is_end_of_input_false tokens i t Hn Ht).
    reflexivity. }
  split; [|split; [|split]].
  - intros o j H. unfold peek, bind in H.
    destruct (is_end_of_input_total tokens i) as [b Hb]. rewrite Hb in H.
    destruct b; unfold ret in H; [congruence|].
    destruct (nth_error tokens (S i)); congruence.
  - intros H. unfold peek, bind at 1. rewrite H. reflexivity.
  - exact Hnot.
  - intros t l e Hn Ht El He. rewrite (Hnot t Hn Ht).
    assert (S i < List.length tokens).
    { assert (Hi : i < List.length tokens) by (apply nth_error_Some; congruence).
      destruct (Nat.eq_dec (S i) (List.length tokens)) as [E|E]; [|lia].
      exfalso. subst tokens. rewrite length_app in E. simpl in E.
      rewrite nth_error_app2 in Hn by lia. replace (i - List.length l) with 0 in Hn by lia.
      simpl in Hn. inversion Hn. subst. contradiction. }
    destruct (nth_error tokens (S i)) as [t'|] eqn:E.
    + exists t'. auto.
    + apply nth_error_None in E. lia.
Qed.

(** X3.  [is_end_of_input()] never fails and never moves the cursor, even
    past the end of the token list: the short-circuit [or] reads the current
    token only when there is one. *)
Theorem is_end_of_input_safe tokens i :
  exists b, is_end_of_input tokens i = Ok (b, i) /\ (List.length tokens <= i -> b = true).
Proof.
  destruct (is_end_of_input_total tokens i) as [b Hb]. exists b. split; [exact Hb|].
  intros Hl. unfold is_end_of_input in Hb. apply Nat.leb_le in Hl. rewrite Hl in Hb. congruence.
Qed.

(** ** Round trips of the sub-parsers *)

(** X4.  Each sub-parser reads back what it parses: a data member
    [name [by_move] "type"], an implementation [implement name "body"], an
    operation declaration [function name "type"], a variant
    [Name ( entries )] and a type definition [type name "contents"] are
    returned with their string literals as [literal_text], the entries of a
    variant split into its members and its implementations in source order,
    and the cursor is left just after them, whatever the lexemes of the
    keywords are. *)
Theorem sub_parsers_round_trip kw tokens :
  (forall i m rest, skipn i tokens = render_member kw m ++ rest ->
     runs tokens (parse_data_member tokens) i
          (Member.mk (sm_name m) (sm_by_move m) (literal_text (sm_type m))) rest) /\
  (forall i n b rest, skipn i tokens = [tok kw IMPLEMENT; ident n; str b] ++ rest ->
     runs tokens (parse_implementation tokens) i (Implementation.mk n (literal_text b)) rest) /\
  (forall i f rest, skipn i tokens = render_function kw f ++ rest ->
     runs tokens (parse_function_declaration tokens) i (function_of f) rest) /\
  (forall i v rest, skipn i tokens = render_variant kw v ++ rest ->
     runs tokens (parse_subtype tokens) i
          (sv_name v, entry_members (sv_entries v), entry_implementations (sv_entries v)) rest) /\
  (forall i n c rest, skipn i tokens = [tok kw TYPE; ident n; str c] ++ rest ->
     runs tokens (parse_type_definition tokens) i (n, literal_text c) rest).
Proof.
  split; [|split; [|split; [|split]]].
  - intros i m rest H. exact (parse_data_member_runs kw tokens i m rest H).
  - intros i n b rest H. exact (parse_implementation_runs kw tokens i n b rest H).
  - intros i f rest H. exact (parse_function_declaration_runs kw tokens i f rest H).
  - intros i v rest H. exact (parse_subtype_runs kw tokens i v rest H).
  - intros i n c rest H. exact (parse_type_definition_runs kw tokens i n c rest H).
Qed.

(** ** Malformed variants *)

(** X5.  Inside the parentheses of a variant, [parse_subtype] reads data
    members and implementations in any interleaving and stops at the first
    other token; that token must be [)]: any other one fails with "expected
    [)]" and the kind and lexeme found, and the end-of-input marker fails
    with "unexpected end of input". *)
Theorem parse_subtype_unclosed kw tokens i name es t r :
  skipn i tokens = ident name :: tok kw LEFT_PARENTHESIS :: flat_map (render_entry kw) es ++ t :: r ->
  type_ t <> IDENTIFIER -> type_ t <> IMPLEMENT -> type_ t <> RIGHT_PARENTHESIS ->
  parse_subtype tokens i =
  if TokenType_eqb (type_ t) END_OF_INPUT then Err (ParserError UnexpectedEndOfInput)
  else Err (ParserError (UnexpectedTokenType RIGHT_PARENTHESIS (type_ t) (lexeme t))).
Proof.
  intros H H1 H2 H3. unfold parse_subtype.
  eapply bind_runs_eq; [eapply runs_consume; [exact H | reflexivity | discriminate]|]. intros j Hj.
  eapply bind_runs_eq; [eapply runs_consume; [exact Hj | reflexivity | discriminate]|]. intros j' Hj'.
  eapply bind_runs_eq.
  { apply (parse_subtype_body_runs kw tokens es _ [] [] j' t r Hj' H1 H2).
    eapply fuel_bound; [apply (render_entry_nonempty kw) | exact Hj']. }
  intros j'' Hj''. cbv beta iota. apply skipn_cons_inv in Hj'' as [Hn _].
  destruct (TokenType_eqb (type_ t) END_OF_INPUT) eqn:Ee.
  - apply TokenType_eqb_eq in Ee. apply bind_fails. exact (consume_eof tokens _ j'' t Hn Ee).
  - apply bind_fails. apply consume_mismatch; [exact Hn | | exact H3].
    intros E. rewrite E in Ee. discriminate.
Qed.

(** X5: the variant [Circle ( radius: "double" ]] closed by [=]. *)
Lemma parse_subtype_unclosed_witness :
  let kw := fun _ : TokenType => EmptyString in
  let es := [SMember {| sm_name := "radius"; sm_by_move := false; sm_type := quoted "double" |}] in
  let toks := ident "Circle" :: tok kw LEFT_PARENTHESIS :: flat_map (render_entry kw) es
              ++ [mkToken EQUALS "="; mkToken END_OF_INPUT EmptyString] in
  parse_subtype toks 0 = Err (ParserError (UnexpectedTokenType RIGHT_PARENTHESIS EQUALS "=")).
Proof.
  intros kw es toks.
  exact (parse_subtype_unclosed kw toks 0 "Circle" es (mkToken EQUALS "=")
           [mkToken END_OF_INPUT EmptyString] eq_refl
           ltac:(discriminate) ltac:(discriminate) ltac:(discriminate)).
Defined.

(** ** The file-level loop *)

(** X6.  At file level only [type], an identifier, a string literal and the
    end-of-input marker may start an item: any other token reached by the
    file-level loop makes [parse] fail with "unexpected token" and its kind. *)
Theorem parse_unexpected_token tokens p i0 n tds pts i t :
  parse_prelude tokens 0 = Ok (p, i0) ->
  file_steps tokens (fuel tokens, [], [], i0) (S n, tds, pts, i) ->
  nth_error tokens i = Some t ->
  type_ t <> TYPE -> type_ t <> IDENTIFIER -> type_ t <> STRING_LITERAL -> type_ t <> END_OF_INPUT ->
  parse tokens = Err (ParserError (UnexpectedToken (type_ t))).
Proof.
  intros Hp Hs Hn H1 H2 H3 H4. rewrite (parse_at_loop tokens p i0 (S n) tds pts i Hp Hs).
  rewrite (bind_fails _ _ i _ (parse_file_level_other tokens n tds pts i t Hn H1 H2 H3 H4)).
  reflexivity.
Qed.

(** X6: a file made of [|] alone. *)
Lemma parse_unexpected_token_witness :
  let toks := [mkToken PIPE "|"; mkToken END_OF_INPUT EmptyString] in
  parse toks = Err (ParserError (UnexpectedToken PIPE)).
Proof.
  intros toks.
  exact (parse_unexpected_token toks EmptyString 0 2 [] [] 0 (mkToken PIPE "|")
           eq_refl (file_steps_refl _ _) eq_refl ltac:(discriminate) ltac:(discriminate)
           ltac:(discriminate) ltac:(discriminate)).
Defined.

(** X7.  A token list that starts with the end-of-input marker parses to the
    empty description, whatever follows the marker. *)
Theorem parse_marker_first tokens e r :
  tokens = e :: r -> type_ e = END_OF_INPUT ->
  parse tokens = Ok (GeneratorDescription.mk EmptyString [] [] EmptyString).
Proof. intros -> He. destruct e as [k l]. simpl in He. subst k. reflexivity. Qed.

(** X7: the marker followed by a stray identifier. *)
Lemma parse_marker_first_witness :
  let toks := [mkToken END_OF_INPUT EmptyString; mkToken IDENTIFIER "x"] in
  parse toks = Ok (GeneratorDescription.mk EmptyString [] [] EmptyString).
Proof.
  intros toks. exact (parse_marker_first toks _ _ eq_refl eq_refl).
Defined.

(** X8.  A string literal followed by nothing, or by the end-of-input marker,
    is read as the prelude, not as the postlude: the description has that
    prelude, no item and an empty postlude. *)
Theorem parse_lone_literal_is_prelude tokens s r :
  tokens = s :: r -> type_ s = STRING_LITERAL ->
  (r = [] \/ exists e r', r = e :: r' /\ type_ e = END_OF_INPUT) ->
  parse tokens = Ok (GeneratorDescription.mk (literal_text (lexeme s)) [] [] EmptyString).
Proof.
  intros -> Hs Hr. destruct s as [k l]. simpl in Hs. subst k.
  destruct Hr as [-> | (e & r' & -> & He)]; [reflexivity|].
  destruct e as [k' l']. simpl in He. subst k'. reflexivity.
Qed.

(** X8: a file holding only ["#include <x>"] and the marker. *)
Lemma parse_lone_literal_is_prelude_witness :
  let toks := [mkToken STRING_LITERAL (quoted "#include <x>"); mkToken END_OF_INPUT EmptyString] in
  parse toks = Ok (GeneratorDescription.mk "#include <x>" [] [] EmptyString).
Proof.
  intros toks.
  exact (parse_lone_literal_is_prelude toks _ _ eq_refl eq_refl
           (or_intror (ex_intro _ _ (ex_intro _ _ (conj eq_refl eq_refl))))).
Defined.

Lemma parse_file_level_typedef_last kw tokens n tds pts i m c :
  skipn i tokens = render_item kw (STypeDef m c) ->
  exists j, parse_file_level tokens (S n) tds pts i =
    match n with
    | O => Err OutOfFuel
    | S _ => Ok ((tds ++ [(m, literal_text c)], pts, EmptyString), j)
    end /\ skipn j tokens = [].
Proof.
  intros H.
  destruct (parse_type_definition_runs kw tokens i m c [] ltac:(rewrite app_nil_r; exact H))
    as (j & Hpt & Hj).
  exists j. split; [|exact Hj].
  pose proof H as H'. simpl in H'. apply skipn_cons_inv in H' as [Hn _].
  cbn [parse_file_level]. unfold bind at 1.
  rewrite (is_end_of_input_false tokens i _ Hn) by discriminate. cbv beta iota.
  unfold bind at 1, current at 1. rewrite Hn. cbn [tok type_].
  unfold bind at 1. rewrite Hpt.
  destruct n as [|n]; [reflexivity|]. cbn [parse_file_level]. unfold bind at 1, is_end_of_input.
  apply (f_equal (@List.length Token)) in Hj. rewrite length_skipn in Hj. simpl in Hj.
  replace (Nat.leb (List.length tokens) j) with true by (symmetry; apply Nat.leb_le; lia).
  reflexivity.
Qed.

(** X9.  The end-of-input marker is needed after an abstract type: when the
    file-level loop of [parse] reaches a valid abstract type with nothing
    after it, [parse] fails with Python's [IndexError], since the loop over
    the variants reads the token past the end.  A type definition reached
    with nothing after it needs no marker, since the loop checks
    [is_end_of_input] first: [parse] succeeds with that type definition
    last and an empty postlude. *)
Theorem parse_needs_marker_after_abstract kw tokens p i0 n tds pts i :
  parse_prelude tokens 0 = Ok (p, i0) ->
  file_steps tokens (fuel tokens, [], [], i0) (S n, tds, pts, i) ->
  (forall a, skipn i tokens = render_abstract kw a -> valid_abstract a ->
     parse tokens = Err IndexError) /\
  (forall m c, skipn i tokens = render_item kw (STypeDef m c) ->
     parse tokens = Ok (GeneratorDescription.mk p (tds ++ [(m, literal_text c)]) pts EmptyString)).
Proof.
  intros Hp Hs. split.
  - intros a H Hv.
    assert (Hn : nth_error tokens i = Some (ident (sa_name a)))
      by (rewrite <- (Nat.add_0_r i), <- nth_error_skipn, H; reflexivity).
    rewrite (parse_at_loop tokens p i0 (S n) tds pts i Hp Hs).
    rewrite (bind_fails _ _ i IndexError); [reflexivity|].
    rewrite (parse_file_level_ident tokens n tds pts i _ Hn eq_refl).
    apply bind_fails. exact (parse_polymorphic_type_end kw tokens i a H Hv).
  - intros m c H.
    destruct (parse_file_level_typedef_last kw tokens n tds pts i m c H) as (j & E & Hj).
    pose proof (parse_at_loop tokens p i0 (S n) tds pts i Hp Hs) as Hl.
    unfold bind at 1 in Hl. rewrite E in Hl.
    destruct n as [|n].
    + exfalso. exact (parse_noof tokens Hl).
    + rewrite Hl. cbv beta iota. unfold bind, is_end_of_input.
      apply (f_equal (@List.length Token)) in Hj. rewrite length_skipn in Hj. simpl in Hj.
      replace (Nat.leb (List.length tokens) j) with true by (symmetry; apply Nat.leb_le; lia).
      reflexivity.
Qed.

(** X9: the prelude ["pre"] followed by [Shape ( function area "double" )
    = Circle ( implement area "return 1;" )] with no marker after it, and
    the prelude followed by [type T "int"]. *)
Lemma parse_needs_marker_after_abstract_witness :
  let kw := fun _ : TokenType => EmptyString in
  let a := {| sa_name := "Shape"; sa_members := []; sa_functions := [("area", quoted "double")];
              sa_first := {| sv_name := "Circle";
                             sv_entries := [SImplement "area" (quoted "return 1;")] |};
              sa_rest := [] |} in
  let toks1 := str (quoted "pre") :: render_abstract kw a in
  let toks2 := str (quoted "pre") :: render_item kw (STypeDef "T" (quoted "int")) in
  valid_abstract a /\ parse toks1 = Err IndexError /\
  parse toks2 = Ok (GeneratorDescription.mk "pre" [("T", "int")] [] EmptyString).
Proof.
  intros kw a toks1 toks2.
  assert (Hv : valid_abstract a).
  { split; [repeat constructor; simpl; tauto|].
    constructor; [|constructor]. split; [repeat constructor; simpl; tauto | intros x; simpl; tauto]. }
  split; [exact Hv|]. split.
  - exact (proj1 (parse_needs_marker_after_abstract kw toks1 "pre" 1 (List.length toks1) [] [] 1
                    eq_refl (file_steps_refl _ _)) a eq_refl Hv).
  - exact (proj2 (parse_needs_marker_after_abstract kw toks2 "pre" 1 4 [] [] 1
                    eq_refl (file_steps_refl _ _)) "T" (quoted "int") eq_refl).
Defined.

(** ** The shape of the parsed abstract types *)

Section Shape.
Variable tokens : list Token.

Lemma parse_variants_shape n fs st i st' j :
  parse_variants tokens n fs st i = Ok (st', j) ->
  st <> [] /\ NoDup (map fst st) /\
  Forall (fun kv => PolymorphicType.pure_virtual_functions (snd kv) = fs) st ->
  st' <> [] /\ NoDup (map fst st') /\
  Forall (fun kv => PolymorphicType.pure_virtual_functions (snd kv) = fs) st'.
Proof.
  revert st i. induction n as [|n IH]; intros st i H Hst; simpl in H; [discriminate|].
  forward_pm.
  - eapply IH; [eassumption|]. destruct Hst as (_ & Hnd & Hf).
    split; [apply dict_set_nonempty|]. split; [apply dict_set_NoDup; exact Hnd|].
    apply dict_set_Forall; [|exact Hf].
    match goal with Hi : PolymorphicType.init _ _ _ = Ok _ |- _ =>
      apply init_inv in Hi as (-> & _) end. reflexivity.
  - exact Hst.
Qed.

Lemma parse_polymorphic_type_shape i name ab j :
  parse_polymorphic_type tokens i = Ok ((name, ab), j) ->
  AbstractType.sub_types ab <> [] /\ NoDup (map fst (AbstractType.sub_types ab)) /\
  Forall (fun kv => PolymorphicType.pure_virtual_functions (snd kv) =
                    AbstractType.pure_virtual_functions ab) (AbstractType.sub_types ab).
Proof.
  intros H. unfold parse_polymorphic_type in H. forward_pm. simpl.
  eapply parse_variants_shape; [eassumption|]. simpl.
  split; [discriminate|]. split; [constructor; [simpl; tauto | constructor]|].
  constructor; [|constructor].
  match goal with Hi : PolymorphicType.init _ _ _ = Ok _ |- _ =>
    apply init_inv in Hi as (-> & _) end. reflexivity.
Qed.

Lemma parse_file_level_shape n tds pts i tds' pts' post j :
  parse_file_level tokens n tds pts i = Ok ((tds', pts', post), j) ->
  NoDup (map fst pts) /\
  Forall (fun kv =>
    AbstractType.sub_types (snd kv) <> [] /\ NoDup (map fst (AbstractType.sub_types (snd kv))) /\
    Forall (fun kv' => PolymorphicType.pure_virtual_functions (snd kv') =
                       AbstractType.pure_virtual_functions (snd kv)) (AbstractType.sub_types (snd kv)))
    pts ->
  NoDup (map fst pts') /\
  Forall (fun kv =>
    AbstractType.sub_types (snd kv) <> [] /\ NoDup (map fst (AbstractType.sub_types (snd kv))) /\
    Forall (fun kv' => PolymorphicType.pure_virtual_functions (snd kv') =
                       AbstractType.pure_virtual_functions (snd kv)) (AbstractType.sub_types (snd kv)))
    pts'.
Proof.
  revert tds pts i. induction n as [|n IH]; intros tds pts i H Hpts; simpl in H; [discriminate|].
  forward_pm; [assumption|].
  destruct (type_ a0); forward_pm; try assumption.
  - eapply IH; [eassumption|]. destruct Hpts as [Hnd Hf].
    split; [apply dict_set_NoDup; exact Hnd|]. apply dict_set_Forall; [|exact Hf].
    eapply parse_polymorphic_type_shape. eassumption.
  - eapply IH; eassumption.
Qed.

End Shape.

(** X10.  Whatever the tokens, a description that [parse] returns has no two
    abstract types of the same name; every abstract type has at least one
    variant, no two variants of the same name, and every variant carries the
    operation declarations of its abstract type. *)
Theorem parse_abstract_types_shape tokens d :
  parse tokens = Ok d ->
  NoDup (map fst (GeneratorDescription.abstract_types d)) /\
  Forall (fun kv =>
    AbstractType.sub_types (snd kv) <> [] /\ NoDup (map fst (AbstractType.sub_types (snd kv))) /\
    Forall (fun kv' => PolymorphicType.pure_virtual_functions (snd kv') =
                       AbstractType.pure_virtual_functions (snd kv)) (AbstractType.sub_types (snd kv)))
    (GeneratorDescription.abstract_types d).
Proof.
  unfold parse, parse_m. destruct (bind _ _ 0) as [[d' j]|] eqn:E; [|discriminate].
  intros H; inversion H; subst. forward_pm. simpl.
  eapply parse_file_level_shape; [eassumption|]. split; constructor.
Qed.

(** X10: a file with two abstract types, the second one named twice and
    one of its variants named twice. *)
Lemma parse_abstract_types_shape_witness :
  let kw := fun _ : TokenType => EmptyString in
  let v n := {| sv_name := n; sv_entries := [SImplement "f" (quoted "return;")] |} in
  let a n vs := {| sa_name := n; sa_members := []; sa_functions := [("f", quoted EmptyString)];
                   sa_first := v "A"; sa_rest := vs |} in
  let toks := render_file kw {| sf_prelude := None;
                                sf_items := [SAbstract (a "S" []); SAbstract (a "T" [v "B"]);
                                             SAbstract (a "T" [v "A"; v "A"])];
                                sf_postlude := None |} in
  exists d, parse toks = Ok d /\
  NoDup (map fst (GeneratorDescription.abstract_types d)) /\
  Forall (fun kv =>
    AbstractType.sub_types (snd kv) <> [] /\ NoDup (map fst (AbstractType.sub_types (snd kv))) /\
    Forall (fun kv' => PolymorphicType.pure_virtual_functions (snd kv') =
                       AbstractType.pure_virtual_functions (snd kv)) (AbstractType.sub_types (snd kv)))
    (GeneratorDescription.abstract_types d).
Proof.
  intros kw v a toks. destruct (parse toks) as [d|e] eqn:E.
  - exists d. split; [reflexivity|]. exact (parse_abstract_types_shape toks d E).
  - exfalso. vm_compute in E. discriminate E.
Defined.

(** ** The header of an abstract type *)

(** X11.  In the header of an abstract type the data members come first:
    once an operation has been declared, a data member makes
    [parse_polymorphic_header] fail with "expected [)]", the kind
    [IDENTIFIER] and the member's name. *)
Theorem parse_header_member_after_function kw tokens i name ms fs m r :
  skipn i tokens = ident name :: tok kw LEFT_PARENTHESIS
    :: flat_map (render_member kw) ms ++ flat_map (render_function kw) fs
    ++ render_member kw m ++ r ->
  fs <> [] ->
  parse_polymorphic_header tokens i =
  Err (ParserError (UnexpectedTokenType RIGHT_PARENTHESIS IDENTIFIER (sm_name m))).
Proof.
  intros H Hfs. destruct fs as [|f fs]; [contradiction|].
  unfold parse_polymorphic_header.
  eapply bind_runs_eq; [eapply runs_consume; [exact H | reflexivity | discriminate]|]. intros j Hj.
  eapply bind_runs_eq; [eapply runs_consume; [exact Hj | reflexivity | discriminate]|]. intros j1 Hj1.
  cbn [flat_map] in Hj1. rewrite <- !app_assoc in Hj1.
  eapply bind_runs_eq.
  { apply (parse_base_members_runs kw tokens ms _ [] j1 (tok kw FUNCTION)); [exact Hj1 | discriminate |].
    eapply fuel_bound; [apply (render_member_nonempty kw) | exact Hj1]. }
  intros j2 Hj2.
  assert (Hj2' : skipn j2 tokens =
    flat_map (render_function kw) (f :: fs) ++ ident (sm_name m) :: skipn 1 (render_member kw m) ++ r)
    by (rewrite Hj2; cbn [flat_map]; rewrite <- !app_assoc; reflexivity).
  eapply bind_runs_eq.
  { apply (parse_functions_runs kw tokens (f :: fs) _ [] j2 (ident (sm_name m))); [exact Hj2' | discriminate |].
    eapply fuel_bound; [apply (render_function_nonempty kw) | exact Hj2']. }
  intros j3 Hj3. apply skipn_cons_inv in Hj3 as [Hn _].
  apply bind_fails. exact (consume_mismatch tokens RIGHT_PARENTHESIS j3 _ Hn ltac:(discriminate) ltac:(discriminate)).
Qed.

(** X11: [Shape ( function area "double" id: "int" ) = ...]. *)
Lemma parse_header_member_after_function_witness :
  let kw := fun _ : TokenType => EmptyString in
  let m := {| sm_name := "id"; sm_by_move := false; sm_type := quoted "int" |} in
  let toks := ident "Shape" :: tok kw LEFT_PARENTHESIS
    :: flat_map (render_member kw) [] ++ flat_map (render_function kw) [("area", quoted "double")]
    ++ render_member kw m ++ [tok kw RIGHT_PARENTHESIS; tok kw EQUALS] in
  parse_polymorphic_header toks 0 =
  Err (ParserError (UnexpectedTokenType RIGHT_PARENTHESIS IDENTIFIER "id")).
Proof.
  intros kw m toks.
  exact (parse_header_member_after_function kw toks 0 "Shape" [] [("area", quoted "double")] m
           [tok kw RIGHT_PARENTHESIS; tok kw EQUALS] eq_refl ltac:(discriminate)).
Defined.

(** ** Printing a variant *)

Lemma has_newline_app a b : has_newline (a ++ b) = has_newline a || has_newline b.
Proof. induction a as [|c a IH]; simpl; [reflexivity|]. rewrite IH, orb_assoc. reflexivity. Qed.

Lemma split_lines_nonnil s : split_lines s <> [].
Proof.
  induction s as [|c s IH]; simpl; [discriminate|].
  destruct (Ascii.eqb c _); [discriminate|]. destruct (split_lines s); discriminate.
Qed.

Lemma split_lines_app x s :
  has_newline x = false ->
  split_lines (x ++ s) = match split_lines s with [] => [x] | l :: ls => (x ++ l)%string :: ls end.
Proof.
  induction x as [|c x IH]; simpl; intros H.
  - destruct (split_lines s) eqn:E; [exfalso; exact (split_lines_nonnil s E) | reflexivity].
  - apply orb_false_iff in H as [Hc Hx]. rewrite Hc, (IH Hx).
    destruct (split_lines s) eqn:E; [exfalso; exact (split_lines_nonnil s E) | reflexivity].
Qed.

Lemma append_empty_r (s : string) : (s ++ EmptyString)%string = s.
Proof. induction s as [|c s IH]; simpl; [reflexivity | rewrite IH; reflexivity]. Qed.

Lemma split_lines_join xs :
  xs <> [] -> Forall (fun x => has_newline x = false) xs -> split_lines (join newline xs) = xs.
Proof.
  induction xs as [|x xs IH]; intros Hne Hx; [contradiction|].
  inversion Hx as [|? ? Hx1 Hxs]; subst.
  destruct xs as [|y ys].
  - simpl. rewrite <- (append_empty_r x) at 1. rewrite (split_lines_app x _ Hx1). simpl.
    rewrite append_empty_r. reflexivity.
  - change (join newline (x :: y :: ys)) with (x ++ newline ++ join newline (y :: ys))%string.
    rewrite (split_lines_app x _ Hx1).
    replace (split_lines (newline ++ join newline (y :: ys))%string)
      with (EmptyString :: split_lines (join newline (y :: ys))) by reflexivity.
    rewrite IH by (discriminate || exact Hxs). rewrite append_empty_r. reflexivity.
Qed.

(** X12.  [PolymorphicType.__str__] prints one line per data member, in
    order, each indented by three tabs: when the variant has at least one
    member and no member name or type holds a line feed, splitting the text
    at line feeds gives back exactly these lines, with [ by_move] after the
    name of a member taken by move.  A variant without members prints the
    empty string, which splits into one empty line. *)
Theorem polymorphic_type_str_lines pt :
  (PolymorphicType.members pt = [] ->
     polymorphic_type_str pt = EmptyString /\ split_lines (polymorphic_type_str pt) = [EmptyString]) /\
  (PolymorphicType.members pt <> [] ->
   Forall (fun m => has_newline (Member.name m) = false /\ has_newline (Member.type_ m) = false)
     (PolymorphicType.members pt) ->
   split_lines (polymorphic_type_str pt) =
   map (fun m => String tab (String tab (String tab
          (Member.name m ++ (if Member.by_move m then " by_move" else EmptyString)
           ++ ": " ++ Member.type_ m)%string)))
       (PolymorphicType.members pt)).
Proof.
  split.
  - intros He. unfold polymorphic_type_str. rewrite He. split; reflexivity.
  - intros Hne Hm. unfold polymorphic_type_str. apply split_lines_join.
    + destruct (PolymorphicType.members pt); [contradiction | discriminate].
    + apply Forall_map. eapply Forall_impl; [|exact Hm]. intros m [H1 H2]. simpl.
      unfold member_str. rewrite !has_newline_app, H1.
      destruct (Member.by_move m); simpl; exact H2.
Qed.

(** X12: a variant with the members [r: double] and [id by_move: int]. *)
Lemma polymorphic_type_str_lines_witness :
  let pt := PolymorphicType.mk [] [Member.mk "r" false "double"; Member.mk "id" true "int"] [] in
  split_lines (polymorphic_type_str pt) =
  [String tab (String tab (String tab "r: double"));
   String tab (String tab (String tab "id by_move: int"))].
Proof.
  intros pt. exact (proj2 (polymorphic_type_str_lines pt) ltac:(discriminate)
                      ltac:(repeat constructor)).
Defined.

(** ** Where a successful parse stops *)

Lemma is_end_true_inv tokens j :
  is_end_of_input tokens j = Ok (true, j) ->
  List.length tokens <= j \/ exists t, nth_error tokens j = Some t /\ type_ t = END_OF_INPUT.
Proof.
  unfold is_end_of_input. destruct (Nat.leb_spec (List.length tokens) j) as [Hl|Hl]; [auto|].
  unfold bind, current, ret. destruct (nth_error tokens j) as [t|] eqn:Hn; [|discriminate].
  intros H. inversion H as [E]. right. exists t. split; [reflexivity|]. apply TokenType_eqb_eq. exact E.
Qed.

(** X13.  A successful [parse] leaves its cursor past the last token or on
    an end-of-input marker: the tokens it has not read are nothing, or an
    end-of-input marker and whatever follows it. *)
Theorem parse_stops_at_end tokens d j :
  parse_m tokens 0 = Ok (d, j) ->
  List.length tokens <= j \/ exists t, nth_error tokens j = Some t /\ type_ t = END_OF_INPUT.
Proof.
  intros H. unfold parse_m in H.
  apply bind_inv in H as (p & i0 & Hp & H).
  apply bind_inv in H as ([[tds pts] post] & i1 & Hf & H). cbv beta iota in H.
  apply bind_inv in H as (e & i2 & He & H).
  destruct e; simpl in H; [|discriminate]. unfold ret in H. inversion H; subst.
  pose proof He as He'. apply is_end_of_input_inv in He'. subst. apply is_end_true_inv. exact He.
Qed.

(** X13: a type definition followed by the marker and a stray identifier:
    the parse stops on the marker, at index 3. *)
Lemma parse_stops_at_end_witness :
  let toks := [mkToken TYPE "type"; mkToken IDENTIFIER "T"; mkToken STRING_LITERAL (quoted "int");
               mkToken END_OF_INPUT EmptyString; mkToken IDENTIFIER "x"] in
  parse_m toks 0 = Ok (GeneratorDescription.mk EmptyString [("T", "int")] [] EmptyString, 3) /\
  (List.length toks <= 3 \/ exists t, nth_error toks 3 = Some t /\ type_ t = END_OF_INPUT).
Proof.
  intros toks. split; [reflexivity|].
  exact (parse_stops_at_end toks (GeneratorDescription.mk EmptyString [("T", "int")] [] EmptyString) 3
           eq_refl).
Defined.
